(** * cairoroller: analyze_distribution.py

    A shallow embedding of [analyze_distribution.py], the script that reads
    dice rolls from standard input and prints a distribution analysis, with
    the properties of its parser, frequency table, chi-square statistic,
    verdict, standard deviation and run analysis.

    Conventions of the embedding.
    - Python [int] is [Z] for roll values and [nat] for counts and lengths.
    - Python [str] is a list of Unicode code points ([N]).
    - Python [float] is modelled by exact rationals ([Q]): rounding of binary
      floating point is not modelled, so a statistic of the model and the
      one the script computes may differ in the last binary digit.  The
      NumPy results that may be [nan] have a type of their own ([npfloat]).
    - The NumPy functions are modelled for integers that a 64-bit float
      holds, as the rolls are.
    - [print] appends one line to the standard output of the [world]; a line
      produced from an f-string carries the interpolated values instead of
      their formatted digits.
    - Exceptions and the threading of the world are a state-and-error monad
      [M]; list objects live in a heap and are passed by reference.
    - A warning that NumPy issues is a line on the standard error, as with
      Python's default warning filter. *)

From Stdlib Require Import QArith Qpower Lqa Ascii.
From stdpp Require Import base option list list_numbers numbers strings sorting gmap.

#[local] Open Scope Z_scope.
#[local] Open Scope nat_scope.
#[local] Open Scope list_scope.
#[local] Open Scope stdpp_scope.

(** ** Worlds, exceptions and the monad *)

(** Results of [np.mean], [np.median] and [np.std]: a rational, the square
    root of a rational, or [nan]. *)
Inductive npfloat :=
| Finite (q : Q)
| Sqrt (radicand : Q)
| NaN.

(** One constructor per shape of [print(...)] call to standard output. *)
Inductive out_line :=
| Text (s : string)
| TotalRolls (n : nat)
| FaceRow (face : Z) (count : nat) (percentage expected_freq deviation : Q)
| ChiSquareLine (total_chi_square : Q)
| MeanLine (mean : npfloat)
| MedianLine (median : npfloat)
| StdDevLine (std_dev : npfloat)
| MinMaxLine (lo hi : Z)
| RangeLine (range_name : string) (count : nat) (percentage : Q)
| MaxConsecutiveLine (max_consecutive : nat)
| ConsecutiveSameLine (consecutive_same : nat).

Inductive exn :=
| ZeroDivisionError
| ValueError
| IndexError
| UnicodeDecodeError
| OSError
| SystemExit (code : Z).

(** The two warnings of [np.std]: "Degrees of freedom <= 0 for slice" and
    "invalid value encountered" in a division. *)
Inductive np_warning :=
| DegreesOfFreedom
| InvalidValue.

(** Lines written to standard error. *)
Inductive err_line :=
| ErrText (s : string)
| ErrReading (e : exn)
| RuntimeWarning (warning : np_warning).

(** The standard input: a text still to be read, or a stream whose read
    raises (undecodable bytes, an I/O error). *)
Inductive input :=
| Piped (text : list N)
| Failing (e : exn).

Definition loc := nat.

Record world := World {
  stdin : input;
  heap : gmap loc (list Z);
  stdout : list out_line;
  stderr : list err_line
}.

Inductive outcome (A : Type) :=
| Returned (a : A)
| Raised (e : exn).
Arguments Returned {A} a.
Arguments Raised {A} e.

Definition M (A : Type) : Type := world → outcome A * world.

#[global] Instance M_ret : MRet M := λ A a w, (Returned a, w).
#[global] Instance M_bind : MBind M := λ A B f m w,
  match m w with
  | (Returned a, w') => f a w'
  | (Raised e, w') => (Raised e, w')
  end.

Definition raise {A} (e : exn) : M A := λ w, (Raised e, w).

(** [try: body / except Exception as e: handler]: [SystemExit] is not an
    [Exception] and passes through. *)
Definition try_except {A} (body : M A) (handler : exn → M A) : M A := λ w,
  match body w with
  | (Raised (SystemExit c), w') => (Raised (SystemExit c), w')
  | (Raised e, w') => handler e w'
  | r => r
  end.

Definition print (l : out_line) : M unit := λ w,
  (Returned (), World (stdin w) (heap w) (stdout w ++ [l]) (stderr w)).

Definition eprint (l : err_line) : M unit := λ w,
  (Returned (), World (stdin w) (heap w) (stdout w) (stderr w ++ [l])).

(** [sys.stdin.read()]: the whole remaining input, or the exception of a
    failing stream. *)
Definition stdin_read : M (list N) := λ w,
  match stdin w with
  | Piped text => (Returned text, World (Piped []) (heap w) (stdout w) (stderr w))
  | Failing e => (Raised e, w)
  end.

(** [warnings.warn(..., RuntimeWarning)] *)
Definition warn (warning : np_warning) : M unit := λ w,
  (Returned (),
   World (stdin w) (heap w) (stdout w) (stderr w ++ [RuntimeWarning warning])).

(** A new list object. *)
Definition alloc (l : list Z) : M loc := λ w,
  let r := fresh (dom (heap w)) in
  (Returned r, World (stdin w) (<[r := l]> (heap w)) (stdout w) (stderr w)).

(** The contents of the list object behind a reference. *)
Definition deref (r : loc) : M (list Z) := λ w,
  (Returned (default [] (heap w !! r)), w).

Definition sys_exit {A} (code : Z) : M A := raise (SystemExit code).

(** Python's true division [a / b]. *)
Definition truediv (a b : Q) : M Q :=
  if Qeq_bool b 0 then raise ZeroDivisionError else mret (a / b)%Q.

(** [for x in xs: s = body(s, x)] *)
Fixpoint for_each {A S} (xs : list A) (s : S) (body : S → A → M S) : M S :=
  match xs with
  | [] => mret s
  | x :: xs' => s' ← body s x; for_each xs' s' body
  end.

(** [range(a, b)] *)
Definition range (a b : Z) : list Z := seqZ a (b - a).

(** ** [parse_dice_rolls_from_input] (lines 25-49) *)

(** A string literal as a Python [str]. *)
Definition str (s : string) : list N :=
  N_of_ascii <$> String.list_ascii_of_string s.

Section parser.
(** The regular expression engine classifies the code points above ASCII
    with the alphanumeric table of the Unicode database, which is not part
    of the script. *)
Variable unicode_alnum : N → bool.

(** A word character of [re] on [str] patterns: alphanumeric or ["_"]. *)
Definition is_word (c : N) : bool :=
  if (c <? 128)%N then
    ((48 <=? c) && (c <=? 57) || (65 <=? c) && (c <=? 90)
     || (97 <=? c) && (c <=? 122) || (c =? 95))%N
  else unicode_alnum c.

(** [\b] at position [pos]: the characters before and at [pos] differ in
    being word characters, a missing character counting as a non-word one;
    never in the empty string. *)
Definition at_boundary (text : list N) (pos : nat) : bool :=
  match text with
  | [] => false
  | _ =>
    let thatp := match pos with
                 | O => false
                 | S p => from_option is_word false (text !! p)
                 end in
    let thisp := from_option is_word false (text !! pos) in
    negb (eqb thisp thatp)
  end.

(** The character class [[1-6]]. *)
Definition in_class_1_6 (c : N) : bool := ((49 <=? c) && (c <=? 54))%N.

(** The pattern [\b[1-6]\b] tried at [pos]: the matched substring. *)
Definition match_at (text : list N) (pos : nat) : option (list N) :=
  if at_boundary text pos then
    match text !! pos with
    | Some c =>
      if in_class_1_6 c && at_boundary text (S pos) then Some [c] else None
    | None => None
    end
  else None.

(** The scan of [re.findall]: from [pos], with [todo] positions left; a
    match of this pattern is one character long, so the scan resumes one
    position further in both cases. *)
Fixpoint findall_from (text : list N) (pos todo : nat) : list (list N) :=
  match todo with
  | O => []
  | S todo' =>
    match match_at text pos with
    | Some m => m :: findall_from text (S pos) todo'
    | None => findall_from text (S pos) todo'
    end
  end.

(** [re.findall(r"\b[1-6]\b", text)] *)
Definition re_findall (text : list N) : list (list N) :=
  findall_from text 0 (length text).

(** [int(num)] on a non-empty string of ASCII digits, the only strings
    the pattern produces; any other string is taken to raise. *)
Definition py_int (num : list N) : M Z :=
  match num with
  | [] => raise ValueError
  | _ =>
    if forallb (λ c, (48 <=? c) && (c <=? 57))%N num
    then mret (foldl (λ acc c, 10 * acc + Z.of_N (c - 48)) 0 num)%Z
    else raise ValueError
  end.

Definition parse_dice_rolls_from_input : M (list Z) :=
  try_except
    (input_text ← stdin_read;
     let numbers := re_findall input_text in
     rolls ← mapM py_int numbers;
     match rolls with
     | [] =>
       eprint (ErrText "Error: No valid dice rolls found in input.");;
       eprint (ErrText "Expected integers 1-6 in the piped input.");;
       sys_exit 1
     | _ => mret rolls
     end)
    (λ e, eprint (ErrReading e);; sys_exit 1).
End parser.

(** ** [analyze_distribution] (lines 52-133) *)

Definition Qn (n : nat) : Q := inject_Z (Z.of_nat n).

(** [collections.Counter(rolls)]: each element increments its entry. *)
Definition Counter (rolls : list Z) : gmap Z nat :=
  foldl (λ m elem, <[elem := S (default 0 (m !! elem))]> m) ∅ rolls.

(** [counts[face]]: a missing key reads as zero and is not inserted. *)
Definition counter_get (counts : gmap Z nat) (face : Z) : nat :=
  default 0 (counts !! face).

Definition sumZ (a : list Z) : Z := foldr Z.add 0%Z a.
Definition sumQ (a : list Q) : Q := foldr Qplus 0%Q a.

(** [np.mean(a)] *)
Definition np_mean (a : list Z) : npfloat :=
  match a with
  | [] => NaN
  | _ => Finite (inject_Z (sumZ a) / Qn (length a))
  end.

(** [np.median(a)]: the middle of the sorted values, the mean of the two
    middle ones for an even length. *)
Definition np_median (a : list Z) : npfloat :=
  let sorted := merge_sort Z.le a in
  let n := length a in
  match a with
  | [] => NaN
  | _ =>
    if Nat.even n
    then Finite ((inject_Z (sorted !!! (n / 2 - 1)) + inject_Z (sorted !!! (n / 2))) / 2)
    else Finite (inject_Z (sorted !!! (n / 2)))
  end.

(** The mean of the squared deviations from the mean, with divisor
    [len(a) - 1]. *)
Definition sample_variance (a : list Z) : Q :=
  let mean := (inject_Z (sumZ a) / Qn (length a))%Q in
  (sumQ ((λ x, (inject_Z x - mean) ^ 2)%Q <$> a) / Qn (length a - 1))%Q.

(** [np.std(a, ddof=1)]: the square root of the sample variance.  With one
    element the sum of squares and the divisor are both zero: NumPy warns
    that the degrees of freedom are not positive, warns of the invalid
    value of the quotient, and returns [nan] without an exception.  On an
    empty array the mean is a third invalid quotient. *)
Definition np_std_ddof1 (a : list Z) : M npfloat :=
  match a with
  | [] => warn DegreesOfFreedom;; warn InvalidValue;; warn InvalidValue;; mret NaN
  | [_] => warn DegreesOfFreedom;; warn InvalidValue;; mret NaN
  | _ => mret (Sqrt (sample_variance a))
  end.

(** [min(rolls)] and [max(rolls)] *)
Definition py_min (l : list Z) : M Z :=
  match l with
  | [] => raise ValueError
  | x :: l' => mret (foldl Z.min x l')
  end.
Definition py_max (l : list Z) : M Z :=
  match l with
  | [] => raise ValueError
  | x :: l' => mret (foldl Z.max x l')
  end.

(** [l[i]] for [0 <= i] *)
Definition getitem (l : list Z) (i : nat) : M Z :=
  match l !! i with
  | Some x => mret x
  | None => raise IndexError
  end.

(** The three variables of the run analysis (lines 117-119). *)
Record run_state := RunState {
  consecutive_same : nat;
  max_consecutive : nat;
  current_consecutive : nat
}.

Definition run_init : run_state := RunState 0 1 1.

(** The body of the loop over [i] (lines 122-128), on [rolls[i]] and
    [rolls[i - 1]]. *)
Definition run_step (st : run_state) (cur prev : Z) : run_state :=
  if bool_decide (cur = prev) then
    let current := S (current_consecutive st) in
    RunState (consecutive_same st) (max_consecutive st `max` current) current
  else
    RunState
      (if bool_decide (1 < current_consecutive st)
       then S (consecutive_same st) else consecutive_same st)
      (max_consecutive st) 1.

(** Lines 121-128. *)
Definition run_loop (rolls : list Z) : M run_state :=
  for_each (seq 1 (length rolls - 1)) run_init (λ st i,
    cur ← getitem rolls i;
    prev ← getitem rolls (i - 1);
    mret (run_step st cur prev)).

Definition critical_value : Q := 11.070%Q.

Definition Qlt_bool (a b : Q) : bool := negb (Qle_bool b a).

(** The body of the loop over the faces (lines 71-79); the state is
    [total_chi_square]. *)
Definition face_body (rolls : list Z) (counts : gmap Z nat) (expected_freq : Q)
    (total_chi_square : Q) (face : Z) : M Q :=
  let count := counter_get counts face in
  ratio ← truediv (Qn count) (Qn (length rolls));
  let percentage := (ratio * 100)%Q in
  let deviation := (Qn count - expected_freq)%Q in
  chi_square_component ← truediv (deviation ^ 2) expected_freq;
  let total_chi_square := (total_chi_square + chi_square_component)%Q in
  print (FaceRow face count percentage expected_freq deviation);;
  mret total_chi_square.

(** The body of the loop over the ranges (lines 113-114). *)
Definition range_body (rolls : list Z) (_ : unit) (item : string * nat) : M unit :=
  let '(range_name, count) := item in
  ratio ← truediv (Qn count) (Qn (length rolls));
  let percentage := (ratio * 100)%Q in
  print (RangeLine range_name count percentage).

Definition dashes : string := "--------------------------------------------------".

(** Lines 52-133.  The argument is a reference to the list object; the body
    only reads the list, which is looked up once. *)
Definition analyze_distribution (r : loc) : M unit :=
  rolls ← deref r;
  print (Text "=== DICE ROLL DISTRIBUTION ANALYSIS ===");;
  print (TotalRolls (length rolls));;
  print (Text "");;
  let counts := Counter rolls in
  expected_freq ← truediv (Qn (length rolls)) 6;
  print (Text "FREQUENCY ANALYSIS:");;
  print (Text "Face | Count | Percentage | Expected | Deviation");;
  print (Text dashes);;
  total_chi_square ← for_each (range 1 7) 0%Q (face_body rolls counts expected_freq);
  print (Text dashes);;
  print (ChiSquareLine total_chi_square);;
  print (Text "Critical value (5% significance, 5 df): 11.070");;
  (if Qlt_bool total_chi_square critical_value
   then print (Text "✅ Distribution appears fair (fails to reject null hypothesis)")
   else print (Text "⚠️  Distribution may not be fair (rejects null hypothesis)"));;
  print (Text "");;
  let mean := np_mean rolls in
  let median := np_median rolls in
  std_dev ← np_std_ddof1 rolls;
  print (Text "STATISTICAL MEASURES:");;
  print (MeanLine mean);;
  print (MedianLine median);;
  print (StdDevLine std_dev);;
  lo ← py_min rolls;
  hi ← py_max rolls;
  print (MinMaxLine lo hi);;
  let ranges :=
    [("1-2 (low)", length (filter (λ r, r ∈ [1; 2]%Z) rolls));
     ("3-4 (mid)", length (filter (λ r, r ∈ [3; 4]%Z) rolls));
     ("5-6 (high)", length (filter (λ r, r ∈ [5; 6]%Z) rolls))] in
  print (Text "");;
  print (Text "RANGE ANALYSIS:");;
  for_each ranges () (range_body rolls);;
  st ← run_loop rolls;
  print (Text "");;
  print (Text "PATTERN ANALYSIS:");;
  print (MaxConsecutiveLine (max_consecutive st));;
  print (ConsecutiveSameLine (consecutive_same st)).

(** The script's entry point (lines 136-150); [isatty] is
    [sys.stdin.isatty()]. *)
Definition main (unicode_alnum : N → bool) (isatty : bool) : M unit :=
  if isatty then
    eprint (ErrText "Usage: scarb execute | python3 analyze_distribution.py");;
    eprint (ErrText "This script expects dice roll data to be piped from scarb execute.");;
    sys_exit 1
  else
    rolls ← parse_dice_rolls_from_input unicode_alnum;
    r ← alloc rolls;
    analyze_distribution r.

(** The world a run starts from, and what a run of the analysis on the list
    [rolls] prints. *)
Definition initial_world (input_text : list N) : world :=
  World (Piped input_text) ∅ [] [].

Definition run_analysis (rolls : list Z) : outcome unit * world :=
  (r ← alloc rolls; analyze_distribution r) (initial_world []).

Definition printed (rolls : list Z) : list out_line := stdout (run_analysis rolls).2.

Definition parsed (unicode_alnum : N → bool) (input_text : list N) : outcome (list Z) :=
  (parse_dice_rolls_from_input unicode_alnum (initial_world input_text)).1.

(** ** Reading the report back from the printed lines *)


Definition face_rows (out : list out_line) : list (Z * nat) :=
  omap (λ l, match l with FaceRow f c _ _ _ => Some (f, c) | _ => None end) out.

Definition percentages (out : list out_line) : list Q :=
  omap (λ l, match l with FaceRow _ _ p _ _ => Some p | _ => None end) out.

Definition std_dev_lines (out : list out_line) : list npfloat :=
  omap (λ l, match l with StdDevLine x => Some x | _ => None end) out.

Definition max_run_lines (out : list out_line) : list nat :=
  omap (λ l, match l with MaxConsecutiveLine n => Some n | _ => None end) out.

Definition run_count_lines (out : list out_line) : list nat :=
  omap (λ l, match l with ConsecutiveSameLine n => Some n | _ => None end) out.

Inductive verdict := AppearsFair | MayNotBeFair.

Definition fair_text : string :=
  "✅ Distribution appears fair (fails to reject null hypothesis)".
Definition unfair_text : string :=
  "⚠️  Distribution may not be fair (rejects null hypothesis)".

Definition verdict_lines (out : list out_line) : list verdict :=
  omap (λ l, match l with
             | Text s =>
               if bool_decide (s = fair_text) then Some AppearsFair
               else if bool_decide (s = unfair_text) then Some MayNotBeFair
               else None
             | _ => None
             end) out.

(** ** The values of the report as functions of the rolls *)

(** A world after more lines were printed. *)
Definition emit (w : world) (ls : list out_line) : world :=
  World (stdin w) (heap w) (stdout w ++ ls) (stderr w).

(** [m], run in [w], returns [a] after printing [ls], and does nothing else. *)
Definition yields {A} (m : M A) (w : world) (a : A) (ls : list out_line) : Prop :=
  m w = (Returned a, emit w ls).

(** A world after more lines were written to the standard error. *)
Definition warned (w : world) (es : list err_line) : world :=
  World (stdin w) (heap w) (stdout w) (stderr w ++ es).

(** [m], run in [w], returns [a] after printing [ls] and writing [es] to the
    standard error, and does nothing else. *)
Definition outputs {A} (m : M A) (w : world) (a : A)
    (ls : list out_line) (es : list err_line) : Prop :=
  m w = (Returned a, warned (emit w ls) es).

(** The value of [np.std(rolls, ddof=1)], and the warnings it leaves on the
    standard error for a non-empty list. *)
Definition std_dev_of (rolls : list Z) : npfloat :=
  match length rolls - 1 with
  | O => NaN
  | S _ => Sqrt (sample_variance rolls)
  end.

Definition std_warnings (rolls : list Z) : list err_line :=
  if decide (length rolls = 1)
  then [RuntimeWarning DegreesOfFreedom; RuntimeWarning InvalidValue]
  else [].

Definition faces : list Z := [1; 2; 3; 4; 5; 6]%Z.

Definition count_of (rolls : list Z) (face : Z) : nat :=
  counter_get (Counter rolls) face.

Definition expected_of (rolls : list Z) : Q := (Qn (length rolls) / 6)%Q.

Definition percentage_of (rolls : list Z) (face : Z) : Q :=
  (Qn (count_of rolls face) / Qn (length rolls) * 100)%Q.

Definition deviation_of (rolls : list Z) (face : Z) : Q :=
  (Qn (count_of rolls face) - expected_of rolls)%Q.

Definition component_of (rolls : list Z) (face : Z) : Q :=
  (deviation_of rolls face ^ 2 / expected_of rolls)%Q.

Definition face_row_of (rolls : list Z) (face : Z) : out_line :=
  FaceRow face (count_of rolls face) (percentage_of rolls face)
    (expected_of rolls) (deviation_of rolls face).

Definition total_chi_square_of (rolls : list Z) : Q :=
  foldl (λ total face, total + component_of rolls face)%Q 0%Q faces.

Definition verdict_text_of (rolls : list Z) : string :=
  if Qlt_bool (total_chi_square_of rolls) critical_value
  then fair_text else unfair_text.

Definition range_line_of (rolls : list Z) (item : string * nat) : out_line :=
  RangeLine item.1 item.2 (Qn item.2 / Qn (length rolls) * 100)%Q.

Definition ranges_of (rolls : list Z) : list (string * nat) :=
  [("1-2 (low)"%string, length (filter (λ r, r ∈ [1; 2]%Z) rolls));
   ("3-4 (mid)"%string, length (filter (λ r, r ∈ [3; 4]%Z) rolls));
   ("5-6 (high)"%string, length (filter (λ r, r ∈ [5; 6]%Z) rolls))].

(** The run loop, by recursion on the list: [prev] is [rolls[i - 1]]. *)
Fixpoint scan (prev : Z) (rest : list Z) (st : run_state) : run_state :=
  match rest with
  | [] => st
  | cur :: rest' => scan cur rest' (run_step st cur prev)
  end.

Definition run_state_of (rolls : list Z) : run_state :=
  match rolls with
  | [] => run_init
  | x :: rest => scan x rest run_init
  end.

(** Everything a completed analysis prints. *)
Definition report_lines (rolls : list Z) : list out_line :=
  [Text "=== DICE ROLL DISTRIBUTION ANALYSIS ===";
   TotalRolls (length rolls);
   Text "";
   Text "FREQUENCY ANALYSIS:";
   Text "Face | Count | Percentage | Expected | Deviation";
   Text dashes]
  ++ (face_row_of rolls <$> faces)
  ++ [Text dashes;
      ChiSquareLine (total_chi_square_of rolls);
      Text "Critical value (5% significance, 5 df): 11.070";
      Text (verdict_text_of rolls);
      Text "";
      Text "STATISTICAL MEASURES:";
      MeanLine (np_mean rolls);
      MedianLine (np_median rolls);
      StdDevLine (std_dev_of rolls);
      MinMaxLine (foldl Z.min (hd 0%Z rolls) (tl rolls))
                 (foldl Z.max (hd 0%Z rolls) (tl rolls));
      Text "";
      Text "RANGE ANALYSIS:"]
  ++ (range_line_of rolls <$> ranges_of rolls)
  ++ [Text "";
      Text "PATTERN ANALYSIS:";
      MaxConsecutiveLine (max_consecutive (run_state_of rolls));
      ConsecutiveSameLine (consecutive_same (run_state_of rolls))].

(** ** The properties of the specification *)

(** Every element of the sequence is a face. *)
Definition in_range (rolls : list Z) : Prop := Forall (λ r, 1 ≤ r ≤ 6)%Z rolls.

(** count(f): the number of elements equal to [f]. *)
Definition occurrences (f : Z) (rolls : list Z) : nat :=
  length (filter (λ r, r = f) rolls).


(** The sample variance with Bessel's correction: the sum of the squared
    deviations from the mean, divided by N - 1. *)
Definition bessel_variance (rolls : list Z) : Q :=
  let n := Qn (length rolls) in
  let mean := (inject_Z (sumZ rolls) / n)%Q in
  (sumQ ((λ x, (inject_Z x - mean) ^ 2)%Q <$> rolls) / (n - 1))%Q.

(** The maximal runs of equal consecutive values, in order, each as its
    value and its length. *)
Fixpoint runs (l : list Z) : list (Z * nat) :=
  match l with
  | [] => []
  | x :: l' =>
    match runs l' with
    | (y, n) :: rs =>
      if bool_decide (x = y) then (x, S n) :: rs else (x, 1) :: (y, n) :: rs
    | [] => [(x, 1)]
    end
  end.

(** A list of runs back to the sequence. *)
Definition unruns (rs : list (Z * nat)) : list Z :=
  rs ≫= (λ '(v, n), replicate n v).

(** Neighbouring runs have different values. *)
Fixpoint separated (rs : list (Z * nat)) : Prop :=
  match rs with
  | (x, _) :: (((y, _) :: _) as rs') => x ≠ y ∧ separated rs'
  | _ => True
  end.

Definition run_lengths (l : list Z) : list nat := snd <$> runs l.

(** The length of the longest maximal run. *)
Definition longest_run (l : list Z) : nat := max_list (run_lengths l).

(** The number of maximal runs of length greater than one. *)
Definition streaks (lens : list nat) : nat :=
  length (filter (λ n, 1 < n) lens).
Definition streak_count (l : list Z) : nat := streaks (run_lengths l).

(** The same, leaving the last run of the sequence out. *)
Definition streak_count_before_last (l : list Z) : nat :=
  streaks (removelast (run_lengths l)).

Section tokens.
Variable unicode_alnum : N → bool.

Definition roll_of_digit (c : N) : Z := Z.of_N (c - 48).

Definition is_digit (c : N) : bool := ((48 <=? c) && (c <=? 57))%N.

(** The character at [pos] is a digit 1-6 and neither neighbour, where
    there is one, satisfies [adjacent]. *)
Definition standalone_at (adjacent : N → bool) (text : list N) (pos : nat) : bool :=
  from_option in_class_1_6 false (text !! pos)
  && negb (match pos with
           | O => false
           | S p => from_option adjacent false (text !! p)
           end)
  && negb (from_option adjacent false (text !! S pos)).

Definition standalone_rolls (adjacent : N → bool) (text : list N) : list Z :=
  (λ pos, roll_of_digit (text !!! pos))
  <$> filter (λ pos, standalone_at adjacent text pos = true) (seq 0 (length text)).

(** The rule in the words of the specification: a digit 1-6 is standalone
    iff it is not adjacent to another digit character. *)
Definition digit_standalone_rolls (text : list N) : list Z :=
  standalone_rolls is_digit text.

(** The rule of the pattern: a digit 1-6 with no word character (letter,
    digit or underscore) next to it on either side. *)
Definition word_standalone_rolls (text : list N) : list Z :=
  standalone_rolls (is_word unicode_alnum) text.

(** A tokenizer in one pass: [prev] is the character before [text]. *)
Fixpoint tokenize (prev : option N) (text : list N) : list Z :=
  match text with
  | [] => []
  | c :: rest =>
    let here :=
      in_class_1_6 c
      && negb (from_option (is_word unicode_alnum) false prev)
      && negb (from_option (is_word unicode_alnum) false (head rest)) in
    (if here then [roll_of_digit c] else []) ++ tokenize (Some c) rest
  end.

(** What the parser does with the rolls it extracted: an empty list ends
    the program with status 1. *)
Definition parse_outcome (rolls : list Z) : outcome (list Z) :=
  match rolls with
  | [] => Raised (SystemExit 1)
  | _ => Returned rolls
  end.
End tokens.

(** ** Further views of a run *)

Definition mean_lines (out : list out_line) : list npfloat :=
  omap (λ l, match l with MeanLine x => Some x | _ => None end) out.

Definition median_lines (out : list out_line) : list npfloat :=
  omap (λ l, match l with MedianLine x => Some x | _ => None end) out.

Definition min_max_lines (out : list out_line) : list (Z * Z) :=
  omap (λ l, match l with MinMaxLine lo hi => Some (lo, hi) | _ => None end) out.

Definition range_lines (out : list out_line) : list (string * nat * Q) :=
  omap (λ l, match l with RangeLine s c p => Some (s, c, p) | _ => None end) out.

(** The lines of a report other than the standard deviation line. *)
Definition is_std_dev_line (l : out_line) : bool :=
  match l with
  | StdDevLine _ => true
  | _ => false
  end.

Definition without_std_dev (out : list out_line) : list out_line :=
  filter (λ l, is_std_dev_line l = false) out.

(** The rolls a run of the parser hands over: none when it ends the
    program. *)
Definition rolls_of (o : outcome (list Z)) : list Z :=
  match o with
  | Returned rolls => rolls
  | Raised _ => []
  end.

(** What the script writes to the standard error when it finds no roll, and
    when it is run on a terminal. *)
Definition no_rolls_lines : list err_line :=
  [ErrText "Error: No valid dice rolls found in input.";
   ErrText "Expected integers 1-6 in the piped input."].

Definition usage_lines : list err_line :=
  [ErrText "Usage: scarb execute | python3 analyze_distribution.py";
   ErrText "This script expects dice roll data to be piped from scarb execute."].

(** A text with one decimal digit per roll, each followed by the character
    [sep]. *)
Definition digits_text (sep : N) (rolls : list Z) : list N :=
  rolls ≫= (λ r, [Z.to_N (r + 48); sep]).

(** [m], run in [w], raises [e] after printing [ls], and does nothing else. *)
Definition raises {A} (m : M A) (w : world) (e : exn) (ls : list out_line) : Prop :=
  m w = (Raised e, emit w ls).

(** The number of rolls that satisfy a test. *)
Definition count_if (P : Z → Prop) `{!∀ r, Decision (P r)} (rolls : list Z) : nat :=
  length (filter P rolls).

(** * Proofs *)

(** ** Rules for running monadic code *)

Lemma emit_nil w : emit w [] = w.
Proof. destruct w; unfold emit; simpl. by rewrite app_nil_r. Qed.

Lemma emit_emit w l1 l2 : emit (emit w l1) l2 = emit w (l1 ++ l2).
Proof. unfold emit; simpl. by rewrite app_assoc. Qed.

Section yields.
Context {A B : Type}.

Lemma yields_ret (a : A) w : yields (mret a) w a [].
Proof. unfold yields. by rewrite emit_nil. Qed.

Lemma yields_bind (m : M A) (f : A → M B) w a b l1 l2 :
  yields m w a l1 → yields (f a) (emit w l1) b l2 →
  yields (m ≫= f) w b (l1 ++ l2).
Proof.
  unfold yields, mbind, M_bind. intros -> ->. by rewrite emit_emit.
Qed.

(** A step that prints nothing. *)
Lemma yields_bind_silent (m : M A) (f : A → M B) w a b l :
  yields m w a [] → yields (f a) w b l → yields (m ≫= f) w b l.
Proof.
  intros Hm Hf. change l with ([] ++ l). eapply yields_bind; [done|].
  by rewrite emit_nil.
Qed.
End yields.

Lemma yields_print l w : yields (print l) w () [l].
Proof. done. Qed.

Lemma yields_deref r w l : heap w !! r = Some l → yields (deref r) w l [].
Proof. intros H. unfold yields, deref. by rewrite H, emit_nil. Qed.

Lemma Qn_eq_0 n : Qn n == 0 ↔ n = 0.
Proof.
  unfold Qn, Qeq; simpl. rewrite Z.mul_1_r. lia.
Qed.

Lemma Qn_pos n : 0 < n → (0 < Qn n)%Q.
Proof. unfold Qn, Qlt; simpl. lia. Qed.

Lemma yields_truediv a b w : ¬ b == 0 → yields (truediv a b) w (a / b)%Q [].
Proof.
  intros Hb. unfold truediv.
  destruct (Qeq_bool b 0) eqn:E.
  - apply Qeq_bool_iff in E. contradiction.
  - apply yields_ret.
Qed.

(** A loop whose body prints one line that does not depend on the state. *)
Lemma yields_for_each {A S} (xs : list A) (body : S → A → M S)
    (step : S → A → S) (line : A → out_line) :
  (∀ s x w, x ∈ xs → yields (body s x) w (step s x) [line x]) →
  ∀ s w, yields (for_each xs s body) w (foldl step s xs) (line <$> xs).
Proof.
  induction xs as [|x xs IH]; intros Hbody s w; simpl.
  - apply yields_ret.
  - apply (yields_bind _ _ _ (step s x) _ [line x] (line <$> xs)).
    + apply Hbody. left.
    + apply IH. intros. apply Hbody. by right.
Qed.

Lemma yields_eq {A} (m : M A) w a l l' : yields m w a l → l = l' → yields m w a l'.
Proof. by intros ? <-. Qed.

Lemma yields_choice (b : bool) s1 s2 w :
  yields (if b then print (Text s1) else print (Text s2)) w ()
    [Text (if b then s1 else s2)].
Proof. destruct b; apply yields_print. Qed.

Lemma yields_getitem l i x w : l !! i = Some x → yields (getitem l i) w x [].
Proof. intros H. unfold getitem. rewrite H. apply yields_ret. Qed.

(** ** The run loop *)

(** The loop over the indices is the scan of the list. *)
Lemma run_loop_from rolls rest : ∀ pre p st w,
  rolls = pre ++ p :: rest →
  yields (for_each (seq (S (length pre)) (length rest)) st (λ st i,
            cur ← getitem rolls i;
            prev ← getitem rolls (i - 1);
            mret (run_step st cur prev))) w (scan p rest st) [].
Proof.
  induction rest as [|x rest IH]; intros pre p st w Hrolls; simpl.
  - apply yields_ret.
  - eapply yields_bind_silent.
    + eapply yields_bind_silent.
      * apply (yields_getitem _ _ x). subst rolls.
        rewrite lookup_app_r by lia.
        replace (S (length pre) - length pre) with 1 by lia. done.
      * eapply yields_bind_silent; [|apply yields_ret].
        apply (yields_getitem _ _ p). subst rolls.
        apply list_lookup_middle. lia.
    + specialize (IH (pre ++ [p]) x (run_step st x p) w).
      rewrite length_app in IH. simpl in IH.
      replace (length pre + 1) with (S (length pre)) in IH by lia.
      apply IH. subst rolls. by rewrite <- app_assoc.
Qed.

Lemma yields_run_loop rolls w : yields (run_loop rolls) w (run_state_of rolls) [].
Proof.
  unfold run_loop. destruct rolls as [|x rest]; simpl.
  - apply yields_ret.
  - rewrite Nat.sub_0_r. by apply (run_loop_from (x :: rest) rest []).
Qed.

(** ** The analysis as a whole *)

Lemma range_1_7 : range 1 7 = faces.
Proof. reflexivity. Qed.

Lemma length_nonzero (rolls : list Z) : rolls ≠ [] → ¬ Qn (length rolls) == 0.
Proof. intros Hne. rewrite Qn_eq_0. by destruct rolls. Qed.

Lemma expected_nonzero rolls : rolls ≠ [] → ¬ expected_of rolls == 0.
Proof.
  intros Hne H. unfold expected_of in H.
  apply (length_nonzero rolls Hne).
  rewrite <- (Qmult_div_r (Qn (length rolls)) 6) by discriminate.
  rewrite H. reflexivity.
Qed.

Lemma yields_face_body rolls total face w :
  rolls ≠ [] →
  yields (face_body rolls (Counter rolls) (expected_of rolls) total face) w
    (total + component_of rolls face)%Q [face_row_of rolls face].
Proof.
  intros Hne. unfold face_body.
  eapply yields_bind_silent; [by apply yields_truediv, length_nonzero|].
  eapply yields_bind_silent; [by apply yields_truediv, expected_nonzero|].
  eapply yields_eq.
  - eapply yields_bind; [apply yields_print | apply yields_ret].
  - reflexivity.
Qed.

Lemma yields_range_body rolls s item w :
  rolls ≠ [] →
  yields (range_body rolls s item) w () [range_line_of rolls item].
Proof.
  intros Hne. destruct item as [name count]. unfold range_body.
  eapply yields_bind_silent; [by apply yields_truediv, length_nonzero|].
  apply yields_print.
Qed.

Lemma outputs_bind_yields {A B} (m : M A) (f : A → M B) w a b l1 l2 es :
  yields m w a l1 → outputs (f a) (emit w l1) b l2 es →
  outputs (m ≫= f) w b (l1 ++ l2) es.
Proof.
  unfold yields, outputs, mbind, M_bind. intros -> ->. by rewrite emit_emit.
Qed.

Lemma outputs_bind_silent {A B} (m : M A) (f : A → M B) w a b l es :
  yields m w a [] → outputs (f a) w b l es → outputs (m ≫= f) w b l es.
Proof.
  intros Hm Hf. change l with ([] ++ l). eapply outputs_bind_yields; [done|].
  by rewrite emit_nil.
Qed.

(** A step that writes to the standard error, before code that prints. *)
Lemma outputs_bind_warned {A B} (m : M A) (f : A → M B) w a b l es :
  m w = (Returned a, warned w es) → yields (f a) (warned w es) b l →
  outputs (m ≫= f) w b l es.
Proof. unfold yields, outputs, mbind, M_bind. by intros -> ->. Qed.

Lemma outputs_eq {A} (m : M A) w a l l' es :
  outputs m w a l es → l = l' → outputs m w a l' es.
Proof. by intros ? <-. Qed.

(** [np.std] on a non-empty list: its value and its warnings. *)
Lemma np_std_ddof1_run rolls w :
  rolls ≠ [] →
  np_std_ddof1 rolls w = (Returned (std_dev_of rolls), warned w (std_warnings rolls)).
Proof.
  intros Hne. destruct rolls as [|x [|y l]]; [done|..].
  - unfold np_std_ddof1, mbind, M_bind, warn, warned. simpl.
    by rewrite <- app_assoc.
  - unfold warned. simpl. rewrite app_nil_r. by destruct w.
Qed.

(** A run on a non-empty list completes, prints [report_lines], leaves the
    warnings of [np.std] on the standard error and changes nothing else. *)
Lemma analyze_distribution_outputs r rolls w :
  heap w !! r = Some rolls → rolls ≠ [] →
  outputs (analyze_distribution r) w () (report_lines rolls) (std_warnings rolls).
Proof.
  intros Hr Hne. unfold analyze_distribution.
  eapply outputs_bind_silent; [by apply yields_deref|].
  destruct rolls as [|x rest]; [done|].
  eapply outputs_eq.
  - do 3 (eapply outputs_bind_yields; [apply yields_print|]).
    eapply outputs_bind_silent.
    { apply yields_truediv. discriminate. }
    do 3 (eapply outputs_bind_yields; [apply yields_print|]).
    eapply outputs_bind_yields.
    { rewrite range_1_7.
      apply (yields_for_each faces _
               (λ total face, total + component_of (x :: rest) face)%Q
               (face_row_of (x :: rest))).
      intros. by apply yields_face_body. }
    do 3 (eapply outputs_bind_yields; [apply yields_print|]).
    eapply outputs_bind_yields; [apply yields_choice|].
    eapply outputs_bind_yields; [apply yields_print|].
    eapply outputs_bind_warned; [by apply np_std_ddof1_run|].
    do 4 (eapply yields_bind; [apply yields_print|]).
    eapply yields_bind_silent; [apply yields_ret|].
    eapply yields_bind_silent; [apply yields_ret|].
    do 3 (eapply yields_bind; [apply yields_print|]).
    eapply yields_bind.
    { apply (yields_for_each _ _ (λ _ _, ()) (range_line_of (x :: rest))).
      intros. by apply yields_range_body. }
    eapply yields_bind_silent; [apply yields_run_loop|].
    do 3 (eapply yields_bind; [apply yields_print|]).
    apply yields_print.
  - unfold report_lines, verdict_text_of, total_chi_square_of, ranges_of,
      fair_text, unfair_text.
    cbn [app hd tl]. reflexivity.
Qed.

(** A run from the initial world, on a new list object. *)
Lemma run_analysis_report rolls :
  rolls ≠ [] →
  (run_analysis rolls).1 = Returned () ∧ printed rolls = report_lines rolls.
Proof.
  intros Hne. unfold printed, run_analysis, mbind, M_bind, alloc. simpl.
  set (w1 := World _ _ _ _).
  assert (Hy : outputs (analyze_distribution (fresh (dom (∅ : gmap loc (list Z))))) w1 ()
                 (report_lines rolls) (std_warnings rolls)).
  { apply analyze_distribution_outputs; [|done]. apply lookup_insert_eq. }
  unfold outputs in Hy. rewrite Hy. done.
Qed.

(** ** The lines of the report, read back *)


Lemma face_rows_report rolls :
  face_rows (report_lines rolls) = (λ f, (f, count_of rolls f)) <$> faces.
Proof. reflexivity. Qed.

Lemma percentages_report rolls :
  percentages (report_lines rolls) = percentage_of rolls <$> faces.
Proof. reflexivity. Qed.

Lemma std_dev_lines_report rolls :
  std_dev_lines (report_lines rolls) = [std_dev_of rolls].
Proof. reflexivity. Qed.

Lemma max_run_lines_report rolls :
  max_run_lines (report_lines rolls) = [max_consecutive (run_state_of rolls)].
Proof. reflexivity. Qed.

Lemma run_count_lines_report rolls :
  run_count_lines (report_lines rolls) = [consecutive_same (run_state_of rolls)].
Proof. reflexivity. Qed.

Lemma verdict_lines_report rolls :
  verdict_lines (report_lines rolls) =
  [if Qlt_bool (total_chi_square_of rolls) critical_value
   then AppearsFair else MayNotBeFair].
Proof.
  unfold report_lines, verdict_text_of.
  destruct (Qlt_bool _ _); vm_compute; reflexivity.
Qed.

(** ** The frequency table *)

Lemma occurrences_cons f x rolls :
  occurrences f (x :: rolls) = (if decide (x = f) then 1 else 0) + occurrences f rolls.
Proof.
  unfold occurrences. rewrite filter_cons. by destruct (decide (x = f)).
Qed.

Lemma Counter_foldl rolls : ∀ (m : gmap Z nat) f,
  default 0 (foldl (λ m elem, <[elem := S (default 0 (m !! elem))]> m) m rolls !! f)
  = default 0 (m !! f) + occurrences f rolls.
Proof.
  induction rolls as [|x rolls IH]; intros m f; simpl.
  - unfold occurrences. simpl. lia.
  - rewrite IH, occurrences_cons. destruct (decide (x = f)) as [->|Hne].
    + rewrite lookup_insert_eq. simpl. lia.
    + rewrite lookup_insert_ne by done. lia.
Qed.

(** The entry of a face is the number of its occurrences. *)
Lemma count_of_occurrences rolls f : count_of rolls f = occurrences f rolls.
Proof.
  unfold count_of, counter_get, Counter. rewrite Counter_foldl.
  by rewrite lookup_empty.
Qed.

Lemma occurrences_absent f rolls : f ∉ rolls → occurrences f rolls = 0.
Proof.
  induction rolls as [|x rolls IH]; intros Hf; [done|].
  rewrite occurrences_cons. rewrite not_elem_of_cons in Hf.
  destruct Hf as [Hne Hf]. rewrite decide_False by done. by rewrite IH.
Qed.

Lemma occurrences_sum rolls :
  in_range rolls → sum_list ((λ f, occurrences f rolls) <$> faces) = length rolls.
Proof.
  induction 1 as [|x rolls Hx Hr IH]; [done|].
  unfold faces in *. simpl in *. rewrite !occurrences_cons.
  repeat case_decide; lia.
Qed.

(** ** Percentages *)

Lemma Qn_plus a b : Qn (a + b) == Qn a + Qn b.
Proof. unfold Qn. rewrite Nat2Z.inj_add, inject_Z_plus. reflexivity. Qed.

Lemma Qn_sum_list (l : list nat) : Qn (sum_list l) == sumQ (Qn <$> l).
Proof.
  induction l as [|a l IH]; simpl; [reflexivity|].
  rewrite Qn_plus, IH. reflexivity.
Qed.

Lemma sumQ_scale (l : list Q) (k : Q) : sumQ ((λ q, q * k)%Q <$> l) == sumQ l * k.
Proof.
  induction l as [|a l IH]; simpl; [ring|]. rewrite IH. ring.
Qed.

Lemma percentages_sum rolls :
  rolls ≠ [] → in_range rolls → sumQ (percentage_of rolls <$> faces) == 100.
Proof.
  intros Hne Hr.
  pose proof (length_nonzero rolls Hne) as Hn.
  assert (Hsum : sumQ ((λ f, Qn (count_of rolls f)) <$> faces) == Qn (length rolls)).
  { rewrite <- (occurrences_sum rolls Hr), Qn_sum_list, <- list_fmap_compose.
    unfold faces. simpl. by rewrite !count_of_occurrences. }
  assert (Hp : sumQ (percentage_of rolls <$> faces)
               == sumQ ((λ f, Qn (count_of rolls f)) <$> faces) * (100 / Qn (length rolls))).
  { rewrite <- sumQ_scale, <- list_fmap_compose. unfold faces, percentage_of. simpl.
    field. done. }
  rewrite Hp, Hsum. field. done.
Qed.

(** ** The chi-square statistic *)









(** ** The verdict *)

Lemma Qlt_bool_iff a b : Qlt_bool a b = true ↔ (a < b)%Q.
Proof.
  unfold Qlt_bool. rewrite negb_true_iff. split.
  - intros H. apply Qnot_le_lt. intros Hle. apply Qle_bool_iff in Hle. congruence.
  - intros H. destruct (Qle_bool b a) eqn:E; [|done].
    apply Qle_bool_iff in E. by apply Qlt_not_le in H.
Qed.

(** ** Maximal runs *)

Lemma runs_cons_head x l : ∃ k rs, runs (x :: l) = (x, S k) :: rs.
Proof.
  simpl. destruct (runs l) as [|[y n] rs]; [by exists 0, []|].
  case_bool_decide; eauto.
Qed.

(** [runs] cuts the sequence into its maximal runs: the runs give the
    sequence back, none is empty, and neighbours differ in value. *)
Lemma runs_decompose l :
  unruns (runs l) = l ∧ Forall (λ r, 1 ≤ r.2) (runs l) ∧ separated (runs l).
Proof.
  unfold unruns. induction l as [|x l (IH1 & IH2 & IH3)]; [done|].
  simpl. destruct (runs l) as [|[y n] rs] eqn:E.
  - destruct l as [|z l].
    + split_and!; [done | by repeat constructor | done].
    + destruct (runs_cons_head z l) as (? & ? & ?). congruence.
  - case_bool_decide as Hxy.
    + subst y. split_and!.
      * rewrite <- IH1. done.
      * inversion IH2; subst. constructor; [simpl; lia|done].
      * destruct rs as [|[z m] rs']; [done|]. done.
    + split_and!.
      * rewrite <- IH1. done.
      * constructor; [simpl; lia|done].
      * done.
Qed.

Lemma streaks_cons n lens :
  streaks (n :: lens) = (if decide (1 < n) then 1 else 0) + streaks lens.
Proof. unfold streaks. rewrite filter_cons. by destruct (decide (1 < n)). Qed.

(** The state of the scan in terms of the runs still ahead: the first of
    them continues the run the scan is in. *)
Lemma scan_spec rest : ∀ prev same mx cur k rs,
  runs (prev :: rest) = (prev, S k) :: rs →
  1 ≤ cur ≤ mx →
  let lens := (cur + k) :: (snd <$> rs) in
  let st := scan prev rest (RunState same mx cur) in
  consecutive_same st = same + streaks (removelast lens)
  ∧ max_consecutive st = mx `max` max_list lens.
Proof.
  induction rest as [|x rest IH]; intros prev same mx cur k rs Hruns Hcur.
  - simpl in Hruns. injection Hruns as <- <-. simpl. unfold streaks. simpl. lia.
  - destruct (runs_cons_head x rest) as (k' & rs' & Hx).
    change (runs (prev :: x :: rest)) with
      (match runs (x :: rest) with
       | (y, n) :: rs0 =>
         if bool_decide (prev = y) then (prev, S n) :: rs0
         else (prev, 1) :: (y, n) :: rs0
       | [] => [(prev, 1)]
       end) in Hruns.
    rewrite Hx in Hruns. cbn [scan]. unfold run_step.
    cbn [consecutive_same max_consecutive current_consecutive].
    case_bool_decide as Hpx.
    + subst x. rewrite bool_decide_eq_true_2 by done.
      injection Hruns as <- <-.
      destruct (IH prev same (mx `max` S cur) (S cur) k' rs' Hx) as [IHa IHb]; [lia|].
      cbn zeta in *. rewrite IHa, IHb.
      replace (cur + S k') with (S cur + k') by lia.
      split; [done|]. simpl. lia.
    + rewrite bool_decide_eq_false_2 by congruence.
      injection Hruns as <- <-.
      destruct (IH x (if bool_decide (1 < cur) then S same else same) mx 1 k' rs' Hx)
        as [IHa IHb]; [lia|].
      cbn zeta in *. rewrite IHa, IHb.
      replace (cur + 0) with cur by lia.
      cbn [fmap list_fmap snd removelast]. rewrite streaks_cons.
      split.
      * case_bool_decide; case_decide; simpl; lia.
      * simpl. lia.
Qed.

(** What the run loop computes on a non-empty sequence. *)
Lemma run_state_of_spec rolls :
  rolls ≠ [] →
  max_consecutive (run_state_of rolls) = longest_run rolls
  ∧ consecutive_same (run_state_of rolls) = streak_count_before_last rolls.
Proof.
  intros Hne. destruct rolls as [|x rest]; [done|].
  destruct (runs_cons_head x rest) as (k & rs & Hx).
  destruct (scan_spec rest x 0 1 1 k rs Hx) as [Ha Hb]; [lia|].
  cbn zeta in *. unfold run_state_of, run_init, longest_run,
    streak_count_before_last, run_lengths.
  rewrite Ha, Hb, Hx. cbn [fmap list_fmap snd]. split; [|done].
  simpl. lia.
Qed.

Lemma longest_run_pos (rolls : list Z) : rolls ≠ [] → 1 ≤ longest_run rolls.
Proof.
  intros Hne. destruct rolls as [|x rest]; [done|].
  destruct (runs_cons_head x rest) as (k & rs & Hx).
  unfold longest_run, run_lengths. rewrite Hx. simpl. lia.
Qed.

Lemma runs_constant l : ∀ x,
  (∀ y, y ∈ l → y = x) → runs (x :: l) = [(x, S (length l))].
Proof.
  induction l as [|y l IH]; intros x Hall; [done|].
  assert (y = x) as -> by (apply Hall; left).
  change (runs (x :: x :: l)) with
    (match runs (x :: l) with
     | (y, n) :: rs0 =>
       if bool_decide (x = y) then (x, S n) :: rs0 else (x, 1) :: (y, n) :: rs0
     | [] => [(x, 1)]
     end).
  rewrite IH by (intros; apply Hall; by right).
  by rewrite bool_decide_eq_true_2.
Qed.

Lemma longest_run_constant (rolls : list Z) :
  rolls ≠ [] → (∀ x y, x ∈ rolls → y ∈ rolls → x = y) →
  longest_run rolls = length rolls.
Proof.
  intros Hne Hall. destruct rolls as [|x rest]; [done|].
  unfold longest_run, run_lengths. rewrite runs_constant.
  - simpl. lia.
  - intros y Hy. apply Hall; [by right | left].
Qed.

(** No two neighbours of the sequence are equal. *)
Lemma runs_no_repeat (l : list Z) :
  (∀ i x y, l !! i = Some x → l !! S i = Some y → x ≠ y) →
  runs l = (λ v, (v, 1)) <$> l.
Proof.
  induction l as [|x l IH]; intros Hadj; [done|].
  simpl. rewrite IH by (intros i a b; apply (Hadj (S i))).
  destruct l as [|y l]; [done|]. simpl.
  rewrite bool_decide_eq_false_2; [done|]. by apply (Hadj 0).
Qed.

Lemma longest_run_no_repeat (rolls : list Z) :
  rolls ≠ [] →
  (∀ i x y, rolls !! i = Some x → rolls !! S i = Some y → x ≠ y) →
  longest_run rolls = 1.
Proof.
  intros Hne Hadj. unfold longest_run, run_lengths.
  rewrite runs_no_repeat by done. rewrite <- list_fmap_compose.
  clear Hadj. destruct rolls as [|x rest]; [done|]. clear Hne. simpl.
  induction rest as [|y rest IH]; simpl; [done|]. simpl in IH. lia.
Qed.

(** ** The parser *)

Section parser_proofs.
Variable unicode_alnum : N → bool.
#[local] Abbreviation word := (is_word unicode_alnum).

Lemma in_class_is_word c : in_class_1_6 c = true → word c = true.
Proof.
  unfold in_class_1_6, is_word. intros H.
  apply andb_true_iff in H as [H1 H2].
  apply N.leb_le in H1. apply N.leb_le in H2.
  assert (Hlt : (c <? 128)%N = true) by (apply N.ltb_lt; lia).
  assert (H3 : (48 <=? c)%N = true) by (apply N.leb_le; lia).
  assert (H4 : (c <=? 57)%N = true) by (apply N.leb_le; lia).
  by rewrite Hlt, H3, H4.
Qed.

(** The pattern matches at a position exactly when the digit there is
    standalone. *)
Lemma match_at_standalone text pos :
  match_at unicode_alnum text pos =
  if standalone_at word text pos then Some [text !!! pos] else None.
Proof.
  unfold match_at, standalone_at, at_boundary.
  destruct (text !! pos) as [c|] eqn:Hc; simpl.
  - rewrite (list_lookup_total_correct _ _ _ Hc).
    destruct text as [|c0 text']; [done|].
    destruct (in_class_1_6 c) eqn:Hin; simpl.
    + rewrite (in_class_is_word c Hin). simpl.
      destruct pos as [|p]; simpl.
      * by destruct (from_option word false (text' !! 0)).
      * destruct (from_option word false ((c0 :: text') !! p)); simpl; [done|].
        by destruct (from_option word false (text' !! S p)).
    + by destruct (negb _).
  - destruct text; [done|]. by destruct (negb _).
Qed.

Lemma findall_from_omap text : ∀ todo pos,
  findall_from unicode_alnum text pos todo
  = omap (match_at unicode_alnum text) (seq pos todo).
Proof.
  induction todo as [|todo IH]; intros pos; [done|].
  simpl. rewrite IH. by destruct (match_at unicode_alnum text pos).
Qed.

Lemma standalone_at_digit adjacent text pos :
  standalone_at adjacent text pos = true → in_class_1_6 (text !!! pos) = true.
Proof.
  unfold standalone_at. destruct (text !! pos) as [c|] eqn:Hc; simpl; [|done].
  rewrite (list_lookup_total_correct _ _ _ Hc).
  by destruct (in_class_1_6 c).
Qed.

Lemma py_int_digit c w :
  in_class_1_6 c = true → py_int [c] w = (Returned (roll_of_digit c), w).
Proof.
  unfold in_class_1_6, py_int. intros H.
  apply andb_true_iff in H as [H1 H2].
  apply N.leb_le in H1. apply N.leb_le in H2.
  assert (H3 : (48 <=? c)%N = true) by (apply N.leb_le; lia).
  assert (H4 : (c <=? 57)%N = true) by (apply N.leb_le; lia).
  simpl. by rewrite H3, H4.
Qed.

(** The conversion of the matches never raises and touches nothing. *)
Lemma mapM_py_int_matches text w : ∀ ps,
  mapM py_int (omap (match_at unicode_alnum text) ps) w
  = (Returned ((λ pos, roll_of_digit (text !!! pos))
               <$> filter (λ pos, standalone_at word text pos = true) ps), w).
Proof.
  induction ps as [|p ps IH]; [done|].
  rewrite filter_cons. cbn [omap list_omap]. rewrite match_at_standalone.
  destruct (standalone_at word text p) eqn:Hp.
  - rewrite decide_True by done. cbn [mapM fmap list_fmap].
    unfold mbind, M_bind in *.
    rewrite py_int_digit by (by eapply standalone_at_digit).
    by rewrite IH.
  - rewrite decide_False by done. apply IH.
Qed.

(** What a run of the parser returns, on the input [stdin w]. *)
Lemma parse_dice_rolls_from_input_run w text :
  stdin w = Piped text →
  (parse_dice_rolls_from_input unicode_alnum w).1
  = parse_outcome (word_standalone_rolls unicode_alnum text).
Proof.
  intros Hin.
  unfold parse_dice_rolls_from_input, try_except, mbind, M_bind, stdin_read,
    re_findall.
  rewrite Hin, findall_from_omap, mapM_py_int_matches.
  fold (standalone_rolls word text).
  fold (word_standalone_rolls unicode_alnum text).
  by destruct (word_standalone_rolls unicode_alnum text).
Qed.

Lemma parsed_standalone text :
  parsed unicode_alnum text
  = parse_outcome (word_standalone_rolls unicode_alnum text).
Proof. by apply parse_dice_rolls_from_input_run. Qed.

Lemma before_last (pre rest : list N) :
  match length pre with
  | O => false
  | S p => from_option word false ((pre ++ rest) !! p)
  end = from_option word false (last pre).
Proof.
  destruct pre as [|z pre] using rev_ind; [done|].
  rewrite length_app, last_snoc. simpl.
  replace (length pre + 1) with (S (length pre)) by lia.
  rewrite <- app_assoc. simpl. by rewrite list_lookup_middle.
Qed.

(** The positions from [length pre] on give the tokens of the rest. *)
Lemma standalone_tokenize text rest : ∀ pre,
  text = pre ++ rest →
  (λ pos, roll_of_digit (text !!! pos))
  <$> filter (λ pos, standalone_at word text pos = true)
        (seq (length pre) (length rest))
  = tokenize unicode_alnum (last pre) rest.
Proof.
  induction rest as [|c rest IH]; intros pre Htext; [done|].
  cbn [length seq tokenize]. rewrite filter_cons.
  assert (Hc : text !! length pre = Some c).
  { subst text. by apply list_lookup_middle. }
  assert (Hnext : text !! S (length pre) = head rest).
  { subst text. rewrite lookup_app_r by lia.
    replace (S (length pre) - length pre) with 1 by lia.
    simpl. by destruct rest. }
  assert (Hst : standalone_at word text (length pre)
                = in_class_1_6 c && negb (from_option word false (last pre))
                  && negb (from_option word false (head rest))).
  { unfold standalone_at. rewrite Hc, Hnext. simpl.
    subst text. by rewrite before_last. }
  specialize (IH (pre ++ [c])).
  rewrite length_app, last_snoc in IH. simpl in IH.
  replace (length pre + 1) with (S (length pre)) in IH by lia.
  rewrite <- IH by (subst text; by rewrite <- app_assoc).
  rewrite Hst.
  destruct (in_class_1_6 c && _ && _) eqn:E.
  - rewrite decide_True by done. cbn [fmap list_fmap app].
    by rewrite (list_lookup_total_correct _ _ _ Hc).
  - by rewrite decide_False by done.
Qed.

Lemma word_standalone_tokenize text :
  word_standalone_rolls unicode_alnum text = tokenize unicode_alnum None text.
Proof. by apply (standalone_tokenize text text []). Qed.
End parser_proofs.

(** ** The standard deviation *)

Lemma Qn_pred n : 1 ≤ n → Qn (n - 1) == Qn n - 1.
Proof.
  intros Hn. unfold Qn. rewrite Nat2Z.inj_sub by done.
  unfold Qminus, Z.sub. rewrite inject_Z_plus, inject_Z_opp. reflexivity.
Qed.

Lemma sample_variance_bessel rolls :
  2 ≤ length rolls → sample_variance rolls == bessel_variance rolls.
Proof.
  intros Hn. unfold sample_variance, bessel_variance. cbn zeta.
  rewrite Qn_pred by lia. reflexivity.
Qed.

Lemma std_dev_of_cases rolls :
  std_dev_of rolls
  = if decide (length rolls ≤ 1) then NaN else Sqrt (sample_variance rolls).
Proof.
  unfold std_dev_of. destruct (length rolls - 1) eqn:E; case_decide; done || lia.
Qed.

(** ** Effects *)

Lemma raises_bind_now {A B} (m : M A) (f : A → M B) w e l :
  raises m w e l → raises (m ≫= f) w e l.
Proof. unfold raises, mbind, M_bind. by intros ->. Qed.

Lemma raises_bind_later {A B} (m : M A) (f : A → M B) w a e l1 l2 :
  yields m w a l1 → raises (f a) (emit w l1) e l2 →
  raises (m ≫= f) w e (l1 ++ l2).
Proof.
  unfold yields, raises, mbind, M_bind. intros -> ->. by rewrite emit_emit.
Qed.

(** The lines before the table. *)
Lemma report_lines_head rolls :
  ∃ ls, report_lines rolls = Text "=== DICE ROLL DISTRIBUTION ANALYSIS ===" :: ls.
Proof. unfold report_lines. cbn [app]. eauto. Qed.

(** On an empty list, and on a reference with no list behind it, the
    analysis raises at the first percentage. *)
Lemma analyze_distribution_raises_empty r w :
  default [] (heap w !! r) = [] →
  raises (analyze_distribution r) w ZeroDivisionError
    [Text "=== DICE ROLL DISTRIBUTION ANALYSIS ==="; TotalRolls 0; Text "";
     Text "FREQUENCY ANALYSIS:";
     Text "Face | Count | Percentage | Expected | Deviation"; Text dashes].
Proof.
  intros Hr. unfold analyze_distribution.
  eapply (raises_bind_later _ _ _ _ _ []).
  { unfold yields, deref. by rewrite emit_nil. }
  rewrite emit_nil, Hr.
  do 3 (eapply (raises_bind_later _ _ _ _ _ [_]); [apply yields_print|]).
  eapply (raises_bind_later _ _ _ _ _ []).
  { apply yields_truediv. discriminate. }
  rewrite emit_nil.
  do 3 (eapply (raises_bind_later _ _ _ _ _ [_]); [apply yields_print|]).
  apply raises_bind_now. rewrite range_1_7. cbn [faces for_each].
  apply raises_bind_now. unfold face_body. apply raises_bind_now.
  unfold raises, truediv. simpl. by rewrite emit_nil.
Qed.

(** * The claims *)

(** ** Run analysis *)

(** What the analysis reports as the count of runs: the streaks before the
    last run of the sequence; a streak that ends the sequence is not
    counted. *)
Lemma run_count_reported (rolls : list Z) :
  rolls ≠ [] → run_count_lines (printed rolls) = [streak_count_before_last rolls].
Proof.
  intros Hne. destruct (run_analysis_report rolls Hne) as [_ ->].
  rewrite run_count_lines_report. f_equal. by apply run_state_of_spec.
Qed.

(** C1, on the sequence [1,1,1,1,1,1]: the sequence has one maximal run of
    length greater than one, and the analysis reports a run count of 0. *)
Theorem run_count_all_ones :
  streak_count [1; 1; 1; 1; 1; 1]%Z = 1
  ∧ run_count_lines (printed [1; 1; 1; 1; 1; 1]%Z) = [0].
Proof. split; vm_compute; reflexivity. Qed.

(** C7: for a non-empty sequence the reported maximum run is the length of
    the longest maximal run of equal consecutive values; it is at least 1,
    it is the length of the sequence when all values are identical, and it
    is 1 when no two adjacent values are equal. *)
Theorem max_run_longest (rolls : list Z) :
  rolls ≠ [] →
  ∃ m, max_run_lines (printed rolls) = [m]
       ∧ m = longest_run rolls
       ∧ 1 ≤ m
       ∧ ((∀ x y, x ∈ rolls → y ∈ rolls → x = y) → m = length rolls)
       ∧ ((∀ i x y, rolls !! i = Some x → rolls !! S i = Some y → x ≠ y) → m = 1).
Proof.
  intros Hne. exists (longest_run rolls).
  destruct (run_analysis_report rolls Hne) as [_ ->].
  rewrite max_run_lines_report.
  destruct (run_state_of_spec rolls Hne) as [-> _].
  split_and!; [done|done|by apply longest_run_pos|..].
  - by apply longest_run_constant.
  - by apply longest_run_no_repeat.
Qed.

Lemma max_run_longest_witness :
  [2; 2; 5; 5; 5; 1]%Z ≠ []
  ∧ ∃ m, max_run_lines (printed [2; 2; 5; 5; 5; 1]%Z) = [m] ∧ m = 3.
Proof.
  split; [discriminate|].
  destruct (max_run_longest [2; 2; 5; 5; 5; 1]%Z) as (m & Hm & Hl & _);
    [discriminate|].
  exists m. split; [exact Hm|]. rewrite Hl. reflexivity.
Defined.

(** ** The frequency table *)

(** C8: for a non-empty sequence of faces, the table has a row for every
    face 1..6, in ascending order, with the number of occurrences of the
    face (zero for a face that is absent), and the six counts sum to the
    length of the sequence. *)
Theorem frequency_table_counts (rolls : list Z) :
  rolls ≠ [] → in_range rolls →
  face_rows (printed rolls)
  = (λ f, (f, occurrences f rolls)) <$> [1; 2; 3; 4; 5; 6]%Z
  ∧ (∀ f, f ∉ rolls → counter_get (Counter rolls) f = 0)
  ∧ sum_list (snd <$> face_rows (printed rolls)) = length rolls.
Proof.
  intros Hne Hr. destruct (run_analysis_report rolls Hne) as [_ ->].
  rewrite face_rows_report. fold faces.
  assert (Hrows : (λ f, (f, count_of rolls f)) <$> faces
                  = (λ f, (f, occurrences f rolls)) <$> faces).
  { unfold faces. simpl. by rewrite !count_of_occurrences. }
  rewrite Hrows. split_and!; [done|..].
  - intros f Hf. fold (count_of rolls f).
    by rewrite count_of_occurrences, occurrences_absent.
  - rewrite <- list_fmap_compose. by apply occurrences_sum.
Qed.

Lemma frequency_table_counts_witness :
  [3; 1; 3; 6]%Z ≠ [] ∧ in_range [3; 1; 3; 6]%Z
  ∧ sum_list (snd <$> face_rows (printed [3; 1; 3; 6]%Z)) = 4.
Proof.
  assert (Hr : in_range [3; 1; 3; 6]%Z) by (repeat constructor; lia).
  split_and!; [discriminate|exact Hr|].
  destruct (frequency_table_counts [3; 1; 3; 6]%Z) as (_ & _ & H);
    [discriminate|exact Hr|].
  rewrite H. reflexivity.
Defined.

(** C9: for a non-empty sequence of faces, the percentage of each face is
    100 × count(f) / N, and the six percentages sum to 100, in exact
    rational arithmetic. *)
Theorem percentages_sum_100 (rolls : list Z) :
  rolls ≠ [] → in_range rolls →
  Forall2 (λ p f, p == 100 * Qn (occurrences f rolls) / Qn (length rolls))
    (percentages (printed rolls)) [1; 2; 3; 4; 5; 6]%Z
  ∧ sumQ (percentages (printed rolls)) == 100.
Proof.
  intros Hne Hr. destruct (run_analysis_report rolls Hne) as [_ ->].
  rewrite percentages_report. split; [|by apply percentages_sum].
  pose proof (length_nonzero rolls Hne) as Hn.
  unfold faces. simpl.
  repeat constructor; unfold percentage_of; rewrite count_of_occurrences;
    field; done.
Qed.

Lemma percentages_sum_100_witness :
  [3; 1; 3; 6]%Z ≠ [] ∧ in_range [3; 1; 3; 6]%Z
  ∧ sumQ (percentages (printed [3; 1; 3; 6]%Z)) == 100.
Proof.
  assert (Hr : in_range [3; 1; 3; 6]%Z) by (repeat constructor; lia).
  split_and!; [discriminate|exact Hr|].
  destruct (percentages_sum_100 [3; 1; 3; 6]%Z) as [_ H];
    [discriminate|exact Hr|].
  exact H.
Defined.

(** ** The chi-square statistic and the verdict *)





(** ** The standard deviation *)

(** C3, on the single roll [4]: no error is raised; the analysis completes
    and reports the standard deviation as [nan]. *)
Lemma single_roll_std_dev_nan :
  (run_analysis [4]%Z).1 = Returned ()
  ∧ std_dev_lines (printed [4]%Z) = [NaN].
Proof. split; vm_compute; reflexivity. Qed.

(** C3, as the code has it: the analysis of a non-empty sequence raises no
    error; with two rolls or more the reported standard deviation is the
    square root of the sample variance with divisor N - 1, and with a single
    roll it is [nan]. *)
Theorem std_dev_bessel_or_nan (rolls : list Z) :
  rolls ≠ [] →
  (run_analysis rolls).1 = Returned ()
  ∧ (length rolls = 1 → std_dev_lines (printed rolls) = [NaN])
  ∧ (2 ≤ length rolls →
     ∃ v, std_dev_lines (printed rolls) = [Sqrt v] ∧ v == bessel_variance rolls).
Proof.
  intros Hne. destruct (run_analysis_report rolls Hne) as [-> ->].
  rewrite std_dev_lines_report, std_dev_of_cases.
  split_and!; [done|..]; intros Hn.
  - by rewrite decide_True by lia.
  - rewrite decide_False by lia. exists (sample_variance rolls).
    split; [done|]. by apply sample_variance_bessel.
Qed.

Lemma std_dev_bessel_or_nan_witness :
  [2; 4]%Z ≠ []
  ∧ (2 ≤ length [2; 4]%Z →
     ∃ v, std_dev_lines (printed [2; 4]%Z) = [Sqrt v]
          ∧ v == bessel_variance [2; 4]%Z).
Proof.
  split; [discriminate|].
  destruct (std_dev_bessel_or_nan [2; 4]%Z) as (_ & _ & H); [discriminate|].
  exact H.
Defined.

(** ** Effects *)

(** C6, on the sequence [1,2,3,4,5,6]: starting with nothing printed, the
    analysis leaves thirty-one lines on the standard output. *)
Lemma analysis_prints :
  stdout (initial_world []) = []
  ∧ length (stdout (run_analysis [1; 2; 3; 4; 5; 6]%Z).2) = 31.
Proof. split; vm_compute; reflexivity. Qed.

(** C6, as the code has it: the analysis prints its report on the standard
    output, the header line first; whatever the list and whatever the
    outcome, every list object of the heap is as before (the input is not
    mutated) and nothing is read from the standard input.  The analysis
    itself writes nothing to the standard error: the only lines that a run
    leaves there are the two warnings of [np.std], and only on a list of
    exactly one roll, where they do appear for a roll in 1..6. *)
Theorem analyze_distribution_effects (r : loc) (w : world) :
  ∃ ls es,
    (analyze_distribution r w).2
    = World (stdin w) (heap w)
        (stdout w ++ Text "=== DICE ROLL DISTRIBUTION ANALYSIS ===" :: ls)
        (stderr w ++ es)
    ∧ (es = []
       ∨ (∃ x, heap w !! r = Some [x])
         ∧ es = [RuntimeWarning DegreesOfFreedom; RuntimeWarning InvalidValue])
    ∧ (∀ x, heap w !! r = Some [x] → (1 ≤ x ≤ 6)%Z →
       es = [RuntimeWarning DegreesOfFreedom; RuntimeWarning InvalidValue]).
Proof.
  destruct (decide (default [] (heap w !! r) = [])) as [He|Hne].
  - pose proof (analyze_distribution_raises_empty r w He) as Hrun.
    unfold raises in Hrun. rewrite Hrun. eexists _, [].
    split_and!; [unfold emit; simpl; by rewrite app_nil_r|by left|].
    intros x Hx. by rewrite Hx in He.
  - destruct (heap w !! r) as [rolls|] eqn:Hr; [|done]. simpl in Hne.
    pose proof (analyze_distribution_outputs r rolls w Hr Hne) as Hrun.
    unfold outputs in Hrun. rewrite Hrun.
    destruct (report_lines_head rolls) as [ls ->].
    exists ls, (std_warnings rolls). split; [done|].
    unfold std_warnings. case_decide as Hlen.
    + destruct rolls as [|x [|y l]]; try done.
      split; [right; eauto|done].
    + split; [by left|]. intros x [= ->]. done.
Qed.

(** ** The parser *)

(** C2, on the text "a1 2": the digit 1 is not adjacent to a digit, so the
    rule of the specification keeps it; the parser returns the roll 2
    alone. *)
Lemma parse_digit_after_letter :
  parse_outcome (digit_standalone_rolls (str "a1 2")) = Returned [1; 2]%Z
  ∧ parsed (λ _, false) (str "a1 2") = Returned [2]%Z.
Proof. split; vm_compute; reflexivity. Qed.

(** C2, as the code has it: the parser returns, in their order, the digits
    1-6 that have no word character (letter, digit or underscore) next to
    them, as integers, and ends the program when there is none; "16 2 3"
    gives [2, 3] and "1 6 2 3" gives [1, 6, 2, 3]. *)
Theorem parse_tokens (unicode_alnum : N → bool) (text : list N) :
  parsed unicode_alnum text = parse_outcome (tokenize unicode_alnum None text)
  ∧ parsed unicode_alnum (str "16 2 3") = Returned [2; 3]%Z
  ∧ parsed unicode_alnum (str "1 6 2 3") = Returned [1; 6; 2; 3]%Z.
Proof.
  rewrite !parsed_standalone, !word_standalone_tokenize.
  split_and!; [reflexivity|vm_compute; reflexivity..].
Qed.

(** C10: the parser returns exactly the digits 1-6 with no word character
    (letter, digit or underscore) on either side, in their order: in "a1" and
    in "roll_3" no roll is found, in "(3)" the roll 3 is, and "a1 roll_3 (3)"
    gives [3]. *)
Theorem parse_word_boundaries (unicode_alnum : N → bool) (text : list N) :
  parsed unicode_alnum text
  = parse_outcome
      ((λ pos, roll_of_digit (text !!! pos))
       <$> filter (λ pos, standalone_at (is_word unicode_alnum) text pos = true)
             (seq 0 (length text)))
  ∧ parsed unicode_alnum (str "a1") = Raised (SystemExit 1)
  ∧ parsed unicode_alnum (str "roll_3") = Raised (SystemExit 1)
  ∧ parsed unicode_alnum (str "(3)") = Returned [3]%Z
  ∧ parsed unicode_alnum (str "a1 roll_3 (3)") = Returned [3]%Z.
Proof.
  rewrite !parsed_standalone.
  split_and!; [reflexivity|vm_compute; reflexivity..].
Qed.

(** * Further properties of the code *)

(** ** The parser and the entry point *)

Section parser_runs.
Variable unicode_alnum : N → bool.
#[local] Abbreviation word' := (is_word unicode_alnum).
#[local] Abbreviation tokens := (word_standalone_rolls unicode_alnum).

(** The whole result of a run of the parser on a readable input. *)
Lemma parse_run (w : world) (text : list N) :
  stdin w = Piped text →
  parse_dice_rolls_from_input unicode_alnum w
  = (parse_outcome (tokens text),
     World (Piped []) (heap w) (stdout w)
       (stderr w ++ match tokens text with
                    | [] => no_rolls_lines
                    | _ => []
                    end)).
Proof.
  intros Hin.
  unfold parse_dice_rolls_from_input, try_except, mbind, M_bind, stdin_read,
    re_findall.
  rewrite Hin, findall_from_omap, mapM_py_int_matches.
  fold (standalone_rolls word' text).
  fold (word_standalone_rolls unicode_alnum text).
  destruct (word_standalone_rolls unicode_alnum text); simpl.
  - unfold eprint. simpl. by rewrite <- app_assoc.
  - by rewrite app_nil_r.
Qed.

(** The result of a run of the parser when the read raises. *)
Lemma parse_run_failing (w : world) (e : exn) :
  stdin w = Failing e →
  parse_dice_rolls_from_input unicode_alnum w
  = match e with
    | SystemExit c => (Raised (SystemExit c), w)
    | _ =>
      (Raised (SystemExit 1),
       World (stdin w) (heap w) (stdout w) (stderr w ++ [ErrReading e]))
    end.
Proof.
  intros Hin.
  unfold parse_dice_rolls_from_input, try_except, mbind, M_bind, stdin_read,
    eprint, sys_exit, raise.
  rewrite Hin. destruct e; simpl; by rewrite ?Hin.
Qed.

(** X1: a run of the parser leaves the heap and the standard output as they
    are.  When the read raises an exception it writes the line "Error
    reading input" with the exception to the standard error and ends the
    program with status 1.  Otherwise it reads the whole input: when the
    text has no standalone digit 1-6 it writes its two diagnostic lines to
    the standard error and ends the program with status 1, and when it has
    one it returns the rolls and writes nothing. *)
Theorem parse_dice_rolls_from_input_effects (w : world) :
  parse_dice_rolls_from_input unicode_alnum w
  = match stdin w with
    | Piped text =>
      match tokens text with
      | [] =>
        (Raised (SystemExit 1),
         World (Piped []) (heap w) (stdout w) (stderr w ++ no_rolls_lines))
      | rolls =>
        (Returned rolls, World (Piped []) (heap w) (stdout w) (stderr w))
      end
    | Failing e =>
      match e with
      | SystemExit c => (Raised (SystemExit c), w)
      | _ =>
        (Raised (SystemExit 1),
         World (stdin w) (heap w) (stdout w) (stderr w ++ [ErrReading e]))
      end
    end.
Proof.
  destruct (stdin w) as [text|e] eqn:Hin.
  - rewrite (parse_run w text Hin).
    destruct (tokens text); simpl; [done|]. by rewrite app_nil_r.
  - rewrite (parse_run_failing w e Hin). by rewrite Hin.
Qed.

Lemma rolls_of_parse_outcome l : rolls_of (parse_outcome l) = l.
Proof. by destruct l. Qed.

Lemma not_word_not_digit c : word' c = false → in_class_1_6 c = false.
Proof.
  intros Hc. destruct (in_class_1_6 c) eqn:E; [|done].
  apply (in_class_is_word unicode_alnum) in E. congruence.
Qed.

Lemma roll_of_digit_range c : in_class_1_6 c = true → (1 ≤ roll_of_digit c ≤ 6)%Z.
Proof.
  unfold in_class_1_6, roll_of_digit. intros H.
  apply andb_true_iff in H as [H1 H2].
  apply N.leb_le in H1. apply N.leb_le in H2. lia.
Qed.

Lemma tokens_in_range text : in_range (tokens text).
Proof.
  unfold word_standalone_rolls, standalone_rolls, in_range.
  apply Forall_fmap, Forall_forall. intros pos Hpos.
  apply list_elem_of_filter in Hpos as [Hpos _]. simpl.
  by eapply roll_of_digit_range, standalone_at_digit.
Qed.

(** Two standalone digits are never neighbours: the count of tokens is at
    most half the length of the text, rounded up. *)
Lemma tokenize_length text : ∀ prev,
  2 * length (tokenize unicode_alnum prev text) ≤ length text + 1
  ∧ (from_option in_class_1_6 false (head text) = false →
     2 * length (tokenize unicode_alnum prev text) ≤ length text).
Proof.
  induction text as [|c text IH]; intros prev; [simpl; lia|].
  cbn [tokenize]. destruct (IH (Some c)) as [IHa IHb].
  destruct (in_class_1_6 c && negb (from_option word' false prev)
            && negb (from_option word' false (head text))) eqn:E.
  - apply andb_true_iff in E as [E1 E3]. apply andb_true_iff in E1 as [E1 E2].
    assert (Hnext : from_option in_class_1_6 false (head text) = false).
    { destruct (head text) as [d|]; [|done]. simpl in *.
      apply not_word_not_digit. by destruct (word' d). }
    specialize (IHb Hnext). simpl. rewrite E1. split; [lia|done].
  - simpl. split; [lia|]. intros _. lia.
Qed.

(** X2: the rolls the parser returns are never an empty list, each of them
    is in 1..6, and a text of n characters gives at most (n + 1) / 2 of
    them. *)
Theorem parsed_rolls_valid (text : list N) (rolls : list Z) :
  parsed unicode_alnum text = Returned rolls →
  rolls ≠ [] ∧ in_range rolls ∧ 2 * length rolls ≤ length text + 1.
Proof.
  rewrite parsed_standalone. intros H.
  assert (Hrolls : tokens text = rolls).
  { destruct (tokens text); [done|]. by injection H. }
  split_and!.
  - intros ->. by rewrite Hrolls in H.
  - rewrite <- Hrolls. apply tokens_in_range.
  - rewrite <- Hrolls, word_standalone_tokenize. apply tokenize_length.
Qed.

Lemma tokenize_prev text p1 p2 :
  from_option word' false p1 = from_option word' false p2 →
  tokenize unicode_alnum p1 text = tokenize unicode_alnum p2 text.
Proof. intros H. destruct text; [done|]. simpl. by rewrite H. Qed.

Lemma tokenize_app_sep sep a b : ∀ prev,
  word' sep = false →
  tokenize unicode_alnum prev (a ++ sep :: b)
  = tokenize unicode_alnum prev a ++ tokenize unicode_alnum None b.
Proof.
  intros prev Hsep. revert prev.
  induction a as [|c a IH]; intros prev.
  - cbn [app tokenize]. rewrite (not_word_not_digit sep Hsep). simpl.
    apply tokenize_prev. simpl. done.
  - cbn [app tokenize]. rewrite IH, app_assoc. f_equal. f_equal.
    destruct a; simpl; [by rewrite Hsep|done].
Qed.

(** X3: the rolls of two texts joined by a character that is not a word
    character (a space, a newline, a comma) are the rolls of the first text
    followed by the rolls of the second. *)
Theorem parsed_join (sep : N) (a b : list N) :
  is_word unicode_alnum sep = false →
  rolls_of (parsed unicode_alnum (a ++ sep :: b))
  = rolls_of (parsed unicode_alnum a) ++ rolls_of (parsed unicode_alnum b).
Proof.
  intros Hsep. rewrite !parsed_standalone, !rolls_of_parse_outcome.
  rewrite !word_standalone_tokenize. by apply tokenize_app_sep.
Qed.

Lemma tokenize_digits sep rolls : ∀ prev,
  word' sep = false → from_option word' false prev = false → in_range rolls →
  tokenize unicode_alnum prev (digits_text sep rolls) = rolls.
Proof.
  intros prev Hsep Hprev Hr. revert prev Hprev.
  induction Hr as [|r rolls Hr1 Hr IH]; intros prev Hprev; [done|].
  unfold digits_text in *. cbn [mbind list_bind app tokenize head].
  assert (Hd : in_class_1_6 (Z.to_N (r + 48)) = true).
  { assert (r = 1 ∨ r = 2 ∨ r = 3 ∨ r = 4 ∨ r = 5 ∨ r = 6)%Z
      as [->|[->|[->|[->|[->| ->]]]]] by lia; reflexivity. }
  rewrite Hd, Hprev. simpl. rewrite Hsep. simpl.
  rewrite (not_word_not_digit sep Hsep). simpl.
  rewrite IH by (simpl; done).
  f_equal. unfold roll_of_digit. lia.
Qed.

(** X4: writing one digit per roll, each followed by a character that is
    not a word character, and parsing the text gives the rolls back. *)
Theorem parsed_digits_text (sep : N) (rolls : list Z) :
  is_word unicode_alnum sep = false → rolls ≠ [] → in_range rolls →
  parsed unicode_alnum (digits_text sep rolls) = Returned rolls.
Proof.
  intros Hsep Hne Hr. rewrite parsed_standalone, word_standalone_tokenize.
  rewrite tokenize_digits by done. by destruct rolls.
Qed.
End parser_runs.

Lemma parsed_rolls_valid_witness :
  parsed (λ _, false) (str "3,3;x4 5") = Returned [3; 3; 5]%Z
  ∧ in_range [3; 3; 5]%Z.
Proof.
  assert (H : parsed (λ _, false) (str "3,3;x4 5") = Returned [3; 3; 5]%Z)
    by (vm_compute; reflexivity).
  split; [exact H|].
  exact (proj1 (proj2 (parsed_rolls_valid (λ _, false) _ _ H))).
Defined.

Lemma parsed_join_witness :
  is_word (λ _, false) 10%N = false
  ∧ rolls_of (parsed (λ _, false) (str "1 2" ++ 10%N :: str "x 6"))
    = rolls_of (parsed (λ _, false) (str "1 2"))
      ++ rolls_of (parsed (λ _, false) (str "x 6")).
Proof.
  split; [reflexivity|].
  apply (parsed_join (λ _, false) 10%N); reflexivity.
Defined.

Lemma parsed_digits_text_witness :
  is_word (λ _, false) 10%N = false ∧ [6; 1; 1]%Z ≠ [] ∧ in_range [6; 1; 1]%Z
  ∧ parsed (λ _, false) (digits_text 10 [6; 1; 1]%Z) = Returned [6; 1; 1]%Z.
Proof.
  assert (Hr : in_range [6; 1; 1]%Z) by (repeat constructor; lia).
  split_and!; [reflexivity|discriminate|exact Hr|].
  apply (parsed_digits_text (λ _, false) 10%N); [reflexivity|discriminate|exact Hr].
Defined.

(** X5: the script on a terminal writes its usage to the standard error and
    exits with status 1 without reading.  On a piped input whose read raises
    it writes the "Error reading input" line and exits with status 1; on an
    input with no roll it writes the two diagnostic lines and exits with
    status 1; in both cases it prints nothing.  Otherwise it completes: it
    has printed the 31 lines of a report, and the standard error holds
    nothing but the two warnings of [np.std] when exactly one roll was
    parsed. *)
Theorem main_run (unicode_alnum : N → bool) (isatty : bool) (w : world) :
  ∃ ls, length ls = 31 ∧
  main unicode_alnum isatty w
  = if isatty then
      (Raised (SystemExit 1),
       World (stdin w) (heap w) (stdout w) (stderr w ++ usage_lines))
    else
      match stdin w with
      | Failing e =>
        match e with
        | SystemExit c => (Raised (SystemExit c), w)
        | _ =>
          (Raised (SystemExit 1),
           World (stdin w) (heap w) (stdout w) (stderr w ++ [ErrReading e]))
        end
      | Piped text =>
        match word_standalone_rolls unicode_alnum text with
        | [] =>
          (Raised (SystemExit 1),
           World (Piped []) (heap w) (stdout w) (stderr w ++ no_rolls_lines))
        | rolls =>
          (Returned (),
           World (Piped []) (<[fresh (dom (heap w)) := rolls]> (heap w))
             (stdout w ++ ls) (stderr w ++ std_warnings rolls))
        end
      end.
Proof.
  unfold main. destruct isatty.
  { exists (replicate 31 (Text "")). split; [done|].
    unfold mbind, M_bind, eprint, sys_exit, raise. simpl. by rewrite <- app_assoc. }
  destruct (stdin w) as [text|e] eqn:Hin.
  - unfold mbind at 1. unfold M_bind at 1. rewrite (parse_run _ w text Hin).
    destruct (word_standalone_rolls unicode_alnum text) as [|x l] eqn:E.
    { exists (replicate 31 (Text "")). done. }
    exists (report_lines (x :: l)). split; [reflexivity|].
    cbn [parse_outcome]. rewrite app_nil_r.
    unfold mbind, M_bind, alloc. cbn [stdin heap stdout stderr].
    set (w1 := World _ _ _ _).
    assert (Hy : outputs (analyze_distribution (fresh (dom (heap w)))) w1 ()
                   (report_lines (x :: l)) (std_warnings (x :: l))).
    { apply analyze_distribution_outputs; [|done]. apply lookup_insert_eq. }
    unfold outputs in Hy. by rewrite Hy.
  - exists (replicate 31 (Text "")). split; [done|].
    unfold mbind at 1. unfold M_bind at 1.
    rewrite (parse_run_failing _ w e Hin). destruct e; simpl; by rewrite ?Hin.
Qed.

(** ** The analysis *)

(** X6: on a non-empty list of rolls in 1..6 the analysis raises nothing: it
    returns after appending 31 lines to the standard output; it leaves the
    heap and the standard input as they were, and on the standard error
    nothing but the two warnings of [np.std] when the list has exactly one
    roll. *)
Theorem analyze_distribution_completes (r : loc) (rolls : list Z) (w : world) :
  heap w !! r = Some rolls → rolls ≠ [] → in_range rolls →
  ∃ ls, analyze_distribution r w
        = (Returned (),
           World (stdin w) (heap w) (stdout w ++ ls)
             (stderr w ++ std_warnings rolls))
        ∧ length ls = 31.
Proof.
  intros Hr Hne _. exists (report_lines rolls). split; [|reflexivity].
  by apply analyze_distribution_outputs.
Qed.

Lemma analyze_distribution_completes_witness :
  let w := World (Piped []) {[0 := [5; 2]%Z]} [] [] in
  heap w !! 0 = Some [5; 2]%Z ∧ [5; 2]%Z ≠ [] ∧ in_range [5; 2]%Z
  ∧ (analyze_distribution 0 w).1 = Returned ().
Proof.
  assert (Hr : in_range [5; 2]%Z) by (repeat constructor; lia).
  cbn zeta. split_and!; [reflexivity|discriminate|exact Hr|].
  destruct (analyze_distribution_completes 0 [5; 2]%Z
              (World (Piped []) {[0 := [5; 2]%Z]} [] [])) as (ls & H & _);
    [reflexivity|discriminate|exact Hr|].
  rewrite H. reflexivity.
Defined.

(** X7: on an empty list the analysis prints its six opening lines and then
    raises ZeroDivisionError, at the percentage of the first face. *)
Theorem analyze_distribution_empty (r : loc) (w : world) :
  heap w !! r = Some [] →
  analyze_distribution r w
  = (Raised ZeroDivisionError,
     World (stdin w) (heap w)
       (stdout w ++ [Text "=== DICE ROLL DISTRIBUTION ANALYSIS ===";
                     TotalRolls 0;
                     Text "";
                     Text "FREQUENCY ANALYSIS:";
                     Text "Face | Count | Percentage | Expected | Deviation";
                     Text dashes])
       (stderr w)).
Proof.
  intros Hr. apply analyze_distribution_raises_empty. by rewrite Hr.
Qed.

Lemma analyze_distribution_empty_witness :
  let w := World (Piped []) {[0 := []]} [] [] in
  heap w !! 0 = Some [] ∧ (analyze_distribution 0 w).1 = Raised ZeroDivisionError.
Proof.
  cbn zeta. split; [reflexivity|].
  rewrite (analyze_distribution_empty 0 (World (Piped []) {[0 := []]} [] []));
    reflexivity.
Defined.

(** ** Range buckets, mean, minimum and maximum *)

Lemma mean_lines_report rolls : mean_lines (report_lines rolls) = [np_mean rolls].
Proof. reflexivity. Qed.

Lemma median_lines_report rolls :
  median_lines (report_lines rolls) = [np_median rolls].
Proof. reflexivity. Qed.

Lemma min_max_lines_report rolls :
  min_max_lines (report_lines rolls)
  = [(foldl Z.min (hd 0%Z rolls) (tl rolls), foldl Z.max (hd 0%Z rolls) (tl rolls))].
Proof. reflexivity. Qed.

Lemma range_lines_report rolls :
  range_lines (report_lines rolls)
  = (λ item, (item.1, item.2, (Qn item.2 / Qn (length rolls) * 100)%Q))
    <$> ranges_of rolls.
Proof. reflexivity. Qed.

Lemma bucket_occurrences (a b : Z) (rolls : list Z) :
  a ≠ b →
  length (filter (λ r, r ∈ [a; b]) rolls) = occurrences a rolls + occurrences b rolls.
Proof.
  intros Hab. induction rolls as [|x rolls IH]; [done|].
  rewrite filter_cons, !occurrences_cons.
  destruct (decide (x ∈ [a; b])) as [Hin|Hout]; simpl; rewrite IH.
  - apply elem_of_cons in Hin as [->|Hin].
    + rewrite decide_True by done. rewrite decide_False by done. lia.
    + apply list_elem_of_singleton in Hin as ->.
      rewrite decide_False by done. rewrite decide_True by done. lia.
  - rewrite !decide_False; [lia|..]; intros ->; apply Hout; set_solver.
Qed.

(** X8: the three range lines carry the sums of the table counts of faces 1
    and 2, 3 and 4, 5 and 6, each with its share of the rolls in percent; for
    rolls in 1..6 the three counts sum to the number of rolls and the three
    percentages to 100. *)
Theorem range_buckets (rolls : list Z) :
  rolls ≠ [] → in_range rolls →
  ∃ c1 c2 c3 p1 p2 p3,
    range_lines (printed rolls)
    = [("1-2 (low)"%string, c1, p1); ("3-4 (mid)"%string, c2, p2);
       ("5-6 (high)"%string, c3, p3)]
    ∧ c1 = occurrences 1 rolls + occurrences 2 rolls
    ∧ c2 = occurrences 3 rolls + occurrences 4 rolls
    ∧ c3 = occurrences 5 rolls + occurrences 6 rolls
    ∧ p1 == 100 * Qn c1 / Qn (length rolls)
    ∧ p2 == 100 * Qn c2 / Qn (length rolls)
    ∧ p3 == 100 * Qn c3 / Qn (length rolls)
    ∧ c1 + c2 + c3 = length rolls
    ∧ p1 + p2 + p3 == 100.
Proof.
  intros Hne Hr. destruct (run_analysis_report rolls Hne) as [_ ->].
  rewrite range_lines_report. unfold ranges_of. cbn [fmap list_fmap fst snd].
  rewrite !bucket_occurrences by done.
  pose proof (length_nonzero rolls Hne) as Hn.
  pose proof (occurrences_sum rolls Hr) as Hsum.
  unfold faces in Hsum. simpl in Hsum.
  set (c1 := occurrences 1 rolls + occurrences 2 rolls) in *.
  set (c2 := occurrences 3 rolls + occurrences 4 rolls) in *.
  set (c3 := occurrences 5 rolls + occurrences 6 rolls) in *.
  assert (Hc : c1 + c2 + c3 = length rolls) by (unfold c1, c2, c3; lia).
  eexists c1, c2, c3, _, _, _.
  split_and!; [reflexivity|done|done|done|field; done..|done|].
  rewrite <- Hc at 1 2 3. rewrite <- Hc in Hn. rewrite !Qn_plus in *.
  field. done.
Qed.

Lemma range_buckets_witness :
  [1; 6; 6; 3]%Z ≠ [] ∧ in_range [1; 6; 6; 3]%Z
  ∧ ∃ c1 c2 c3 p1 p2 p3,
      range_lines (printed [1; 6; 6; 3]%Z)
      = [("1-2 (low)"%string, c1, p1); ("3-4 (mid)"%string, c2, p2);
         ("5-6 (high)"%string, c3, p3)]
      ∧ c1 + c2 + c3 = 4.
Proof.
  assert (Hr : in_range [1; 6; 6; 3]%Z) by (repeat constructor; lia).
  split_and!; [discriminate|exact Hr|].
  destruct (range_buckets [1; 6; 6; 3]%Z)
    as (c1 & c2 & c3 & p1 & p2 & p3 & H & _ & _ & _ & _ & _ & _ & Hc & _);
    [discriminate|exact Hr|].
  exists c1, c2, c3, p1, p2, p3. split; [exact H|exact Hc].
Defined.

Lemma sumZ_bounds rolls :
  in_range rolls → (Z.of_nat (length rolls) ≤ sumZ rolls ≤ 6 * Z.of_nat (length rolls))%Z.
Proof. induction 1 as [|x rolls Hx Hr IH]; simpl in *; lia. Qed.

Lemma sumZ_by_face rolls :
  in_range rolls →
  sumZ rolls
  = (1 * Z.of_nat (occurrences 1 rolls) + 2 * Z.of_nat (occurrences 2 rolls)
     + 3 * Z.of_nat (occurrences 3 rolls) + 4 * Z.of_nat (occurrences 4 rolls)
     + 5 * Z.of_nat (occurrences 5 rolls) + 6 * Z.of_nat (occurrences 6 rolls))%Z.
Proof.
  induction 1 as [|x rolls Hx Hr IH]; [done|].
  rewrite !occurrences_cons. cbn [sumZ foldr]. fold (sumZ rolls). rewrite IH.
  repeat case_decide; lia.
Qed.

(** X9: the mean line carries the sum of the rolls divided by their number;
    for rolls in 1..6 it lies between 1 and 6, and it is the sum over the
    faces of face × count(face), divided by the number of rolls. *)
Theorem mean_of_rolls (rolls : list Z) :
  rolls ≠ [] → in_range rolls →
  ∃ m, mean_lines (printed rolls) = [Finite m]
       ∧ m == inject_Z (sumZ rolls) / Qn (length rolls)
       ∧ (1 <= m)%Q ∧ (m <= 6)%Q
       ∧ m == (1 * Qn (occurrences 1 rolls) + 2 * Qn (occurrences 2 rolls)
               + 3 * Qn (occurrences 3 rolls) + 4 * Qn (occurrences 4 rolls)
               + 5 * Qn (occurrences 5 rolls) + 6 * Qn (occurrences 6 rolls))
              / Qn (length rolls).
Proof.
  intros Hne Hr. destruct (run_analysis_report rolls Hne) as [_ ->].
  rewrite mean_lines_report.
  exists (inject_Z (sumZ rolls) / Qn (length rolls))%Q.
  pose proof (sumZ_bounds rolls Hr) as [Hlo Hhi].
  assert (Hpos : (0 < Qn (length rolls))%Q).
  { apply Qn_pos. destruct rolls; [done|simpl; lia]. }
  split_and!.
  - by destruct rolls.
  - reflexivity.
  - apply Qle_shift_div_l; [done|]. rewrite Qmult_1_l. unfold Qn.
    by rewrite <- Zle_Qle.
  - apply Qle_shift_div_r; [done|]. unfold Qn.
    change 6%Q with (inject_Z 6). rewrite <- inject_Z_mult.
    by rewrite <- Zle_Qle.
  - rewrite (sumZ_by_face rolls Hr). unfold Qn.
    rewrite !inject_Z_plus, !inject_Z_mult. reflexivity.
Qed.

Lemma mean_of_rolls_witness :
  [1; 6; 6; 3]%Z ≠ [] ∧ in_range [1; 6; 6; 3]%Z
  ∧ ∃ m, mean_lines (printed [1; 6; 6; 3]%Z) = [Finite m] ∧ (1 <= m)%Q ∧ (m <= 6)%Q.
Proof.
  assert (Hr : in_range [1; 6; 6; 3]%Z) by (repeat constructor; lia).
  split_and!; [discriminate|exact Hr|].
  destruct (mean_of_rolls [1; 6; 6; 3]%Z) as (m & H & _ & Hlo & Hhi & _);
    [discriminate|exact Hr|].
  exists m. split_and!; [exact H|exact Hlo|exact Hhi].
Defined.

Lemma foldl_min_spec l : ∀ x,
  foldl Z.min x l ∈ x :: l ∧ ∀ y, y ∈ x :: l → (foldl Z.min x l ≤ y)%Z.
Proof.
  induction l as [|z l IH]; intros x; simpl.
  - split; [left|]. intros y Hy. apply list_elem_of_singleton in Hy. lia.
  - destruct (IH (x `min` z)%Z) as [Hin Hle]. split.
    + apply elem_of_cons in Hin as [Hm|Hin]; [|by do 2 right].
      rewrite Hm. destruct (Z.min_spec x z) as [[_ ->]|[_ ->]]; [left|right; left].
    + intros y Hy. assert (Hmin : (foldl Z.min (x `min` z) l ≤ x `min` z)%Z)
        by (apply Hle; left).
      apply elem_of_cons in Hy as [->|Hy]; [lia|].
      apply elem_of_cons in Hy as [->|Hy]; [lia|]. apply Hle. by right.
Qed.

Lemma foldl_max_spec l : ∀ x,
  foldl Z.max x l ∈ x :: l ∧ ∀ y, y ∈ x :: l → (y ≤ foldl Z.max x l)%Z.
Proof.
  induction l as [|z l IH]; intros x; simpl.
  - split; [left|]. intros y Hy. apply list_elem_of_singleton in Hy. lia.
  - destruct (IH (x `max` z)%Z) as [Hin Hle]. split.
    + apply elem_of_cons in Hin as [Hm|Hin]; [|by do 2 right].
      rewrite Hm. destruct (Z.max_spec x z) as [[_ ->]|[_ ->]]; [right; left|left].
    + intros y Hy. assert (Hmax : (x `max` z ≤ foldl Z.max (x `max` z) l)%Z)
        by (apply Hle; left).
      apply elem_of_cons in Hy as [->|Hy]; [lia|].
      apply elem_of_cons in Hy as [->|Hy]; [lia|]. apply Hle. by right.
Qed.

(** X10: the minimum and the maximum on the Min/Max line are rolls of the
    sequence, and every roll lies between them. *)
Theorem min_max_of_rolls (rolls : list Z) :
  rolls ≠ [] →
  ∃ lo hi, min_max_lines (printed rolls) = [(lo, hi)]
           ∧ lo ∈ rolls ∧ hi ∈ rolls
           ∧ ∀ r, r ∈ rolls → (lo ≤ r ≤ hi)%Z.
Proof.
  intros Hne. destruct (run_analysis_report rolls Hne) as [_ ->].
  rewrite min_max_lines_report. destruct rolls as [|x l]; [done|]. simpl.
  destruct (foldl_min_spec l x) as [Hmin Hle].
  destruct (foldl_max_spec l x) as [Hmax Hge].
  eexists _, _. split_and!; [reflexivity|done|done|].
  intros r Hr. split; [by apply Hle|by apply Hge].
Qed.

Lemma min_max_of_rolls_witness :
  [4; 2; 5]%Z ≠ []
  ∧ ∃ lo hi, min_max_lines (printed [4; 2; 5]%Z) = [(lo, hi)]
             ∧ lo ∈ [4; 2; 5]%Z ∧ hi ∈ [4; 2; 5]%Z.
Proof.
  split; [discriminate|].
  destruct (min_max_of_rolls [4; 2; 5]%Z) as (lo & hi & H & Hlo & Hhi & _);
    [discriminate|].
  exists lo, hi. split_and!; [exact H|exact Hlo|exact Hhi].
Defined.

(** ** The median *)

Lemma sorted_lookup_le (s : list Z) :
  StronglySorted Z.le s →
  ∀ i j x y, i ≤ j → s !! i = Some x → s !! j = Some y → (x ≤ y)%Z.
Proof.
  induction 1 as [|a s Hs IH Ha]; intros i j x y Hij Hx Hy; [done|].
  destruct i as [|i], j as [|j]; simpl in *; try lia.
  - injection Hx as <-. injection Hy as <-. lia.
  - injection Hx as <-. by eapply Forall_lookup_1 in Ha.
  - eapply IH; [|done..]. lia.
Qed.

Lemma filter_all {A} (P : A → Prop) `{!∀ x, Decision (P x)} (l : list A) :
  Forall P l → filter P l = l.
Proof.
  induction 1 as [|x l Hx Hl IH]; [done|].
  rewrite filter_cons, decide_True by done. by rewrite IH.
Qed.

Lemma count_if_prefix (P : Z → Prop) `{!∀ x, Decision (P x)} (s : list Z) j :
  (∀ i x, i < j → s !! i = Some x → P x) → j ≤ length s → j ≤ count_if P s.
Proof.
  intros HP Hj. unfold count_if.
  replace (filter P s) with (filter P (take j s ++ drop j s))
    by (by rewrite take_drop).
  rewrite filter_app, length_app, filter_all.
  - rewrite length_take. lia.
  - apply Forall_lookup. intros i x Hi.
    pose proof (lookup_lt_Some _ _ _ Hi) as Hlt. rewrite length_take in Hlt.
    rewrite lookup_take_lt in Hi by lia. apply (HP i); [lia|done].
Qed.

Lemma count_if_suffix (P : Z → Prop) `{!∀ x, Decision (P x)} (s : list Z) j :
  (∀ i x, j ≤ i → s !! i = Some x → P x) → length s - j ≤ count_if P s.
Proof.
  intros HP. unfold count_if.
  replace (filter P s) with (filter P (take j s ++ drop j s))
    by (by rewrite take_drop).
  rewrite filter_app, length_app, (filter_all P (drop j s)).
  - rewrite length_drop. lia.
  - apply Forall_lookup. intros i x Hi. rewrite lookup_drop in Hi.
    apply (HP (j + i)); [lia|done].
Qed.

Lemma count_if_sorted (P : Z → Prop) `{!∀ x, Decision (P x)} (rolls : list Z) :
  count_if P (merge_sort Z.le rolls) = count_if P rolls.
Proof. unfold count_if. by rewrite merge_sort_Permutation. Qed.

(** Two entries [a] and [b] of a sorted list around a value [m]: what lies
    up to [a] is at most [m], what lies from [b] on is at least [m]. *)
Lemma around_middle (s : list Z) ka kb a b (m : Q) :
  StronglySorted Z.le s →
  s !! ka = Some a → s !! kb = Some b →
  (inject_Z a <= m)%Q → (m <= inject_Z b)%Q →
  ka + 1 ≤ count_if (λ r, Qle_bool (inject_Z r) m = true) s
  ∧ length s - kb ≤ count_if (λ r, Qle_bool m (inject_Z r) = true) s.
Proof.
  intros Hs Ha Hb Ham Hmb. split.
  - apply count_if_prefix.
    + intros i x Hi Hx. apply Qle_bool_iff.
      apply Qle_trans with (inject_Z a); [|done]. rewrite <- Zle_Qle.
      apply (sorted_lookup_le s Hs i ka); [lia|done..].
    + apply lookup_lt_Some in Ha. lia.
  - apply count_if_suffix. intros i x Hi Hx. apply Qle_bool_iff.
    apply Qle_trans with (inject_Z b); [done|]. rewrite <- Zle_Qle.
    by apply (sorted_lookup_le s Hs kb i).
Qed.

(** X11: the median line carries the mean of two rolls a ≤ b of the
    sequence (the same roll twice for an odd length), and it is a median: at
    least half of the rolls are at most it, and at least half of the rolls
    are at least it. *)
Theorem median_of_rolls (rolls : list Z) :
  rolls ≠ [] →
  ∃ m a b, median_lines (printed rolls) = [Finite m]
    ∧ a ∈ rolls ∧ b ∈ rolls ∧ (a ≤ b)%Z
    ∧ m == (inject_Z a + inject_Z b) / 2
    ∧ length rolls ≤ 2 * count_if (λ r, Qle_bool (inject_Z r) m = true) rolls
    ∧ length rolls ≤ 2 * count_if (λ r, Qle_bool m (inject_Z r) = true) rolls.
Proof.
  intros Hne. destruct (run_analysis_report rolls Hne) as [_ ->].
  rewrite median_lines_report. unfold np_median.
  set (s := merge_sort Z.le rolls).
  assert (Hs : StronglySorted Z.le s)
    by (apply StronglySorted_merge_sort; apply _).
  assert (Hperm : s ≡ₚ rolls) by apply merge_sort_Permutation.
  assert (Hlen : length s = length rolls) by by rewrite Hperm.
  assert (Hpos : 0 < length rolls) by (destruct rolls; [done|simpl; lia]).
  assert (Hcases : ∃ ka kb a b,
            s !! ka = Some a ∧ s !! kb = Some b ∧ ka ≤ kb
            ∧ length rolls ≤ 2 * (ka + 1) ∧ length rolls ≤ 2 * (length s - kb)
            ∧ (if Nat.even (length rolls)
               then Finite ((inject_Z (s !!! (length rolls / 2 - 1))
                             + inject_Z (s !!! (length rolls / 2))) / 2)
               else Finite (inject_Z (s !!! (length rolls / 2))))
              = Finite (if Nat.even (length rolls)
                        then (inject_Z a + inject_Z b) / 2 else inject_Z a)
            ∧ (Nat.even (length rolls) = false → a = b)).
  { destruct (Nat.even (length rolls)) eqn:E.
    - apply Nat.even_spec in E as [k Hk].
      assert (Hdiv : length rolls / 2 = k).
      { rewrite Hk, Nat.mul_comm. apply Nat.div_mul. lia. }
      rewrite Hdiv.
      destruct (lookup_lt_is_Some_2 s (k - 1)) as [a Ha]; [lia|].
      destruct (lookup_lt_is_Some_2 s k) as [b Hb]; [lia|].
      exists (k - 1), k, a, b.
      rewrite (list_lookup_total_correct _ _ _ Ha),
        (list_lookup_total_correct _ _ _ Hb).
      split_and!; [done|done|lia|lia|lia|done|done].
    - assert (Ho : Nat.odd (length rolls) = true)
        by (rewrite <- Nat.negb_even; by rewrite E).
      apply Nat.odd_spec in Ho as [k Hk].
      assert (Hdiv : length rolls / 2 = k).
      { symmetry. apply (Nat.div_unique _ 2 k 1); lia. }
      rewrite Hdiv.
      destruct (lookup_lt_is_Some_2 s k) as [a Ha]; [lia|].
      exists k, k, a, a.
      rewrite (list_lookup_total_correct _ _ _ Ha).
      split_and!; [done|done|lia|lia|lia|done|done]. }
  destruct Hcases as (ka & kb & a & b & Ha & Hb & Hk & H1 & H2 & Heq & Hodd).
  assert (Hab : (a ≤ b)%Z) by by apply (sorted_lookup_le s Hs ka kb).
  set (m := if Nat.even (length rolls)
            then ((inject_Z a + inject_Z b) / 2)%Q else inject_Z a) in *.
  assert (Hm : m == (inject_Z a + inject_Z b) / 2).
  { unfold m. destruct (Nat.even (length rolls)); [reflexivity|].
    rewrite <- (Hodd eq_refl). field. }
  assert (Hqab : (inject_Z a <= inject_Z b)%Q) by by rewrite <- Zle_Qle.
  assert (Ham : (inject_Z a <= m)%Q)
    by (rewrite Hm; apply Qle_shift_div_l; [reflexivity|lra]).
  assert (Hmb : (m <= inject_Z b)%Q)
    by (rewrite Hm; apply Qle_shift_div_r; [reflexivity|lra]).
  destruct (around_middle s ka kb a b m Hs Ha Hb Ham Hmb) as [Hle Hge].
  unfold s in Hle, Hge. rewrite count_if_sorted in Hle, Hge.
  exists m, a, b. destruct rolls as [|x l]; [done|].
  split_and!; [by rewrite Heq| | |done|done|lia|fold s in Hge; lia].
  - rewrite <- Hperm. by eapply list_elem_of_lookup_2.
  - rewrite <- Hperm. by eapply list_elem_of_lookup_2.
Qed.

Lemma median_of_rolls_witness :
  [4; 1; 6; 2]%Z ≠ []
  ∧ ∃ m a b, median_lines (printed [4; 1; 6; 2]%Z) = [Finite m]
             ∧ m == (inject_Z a + inject_Z b) / 2.
Proof.
  split; [discriminate|].
  destruct (median_of_rolls [4; 1; 6; 2]%Z) as (m & a & b & H & _ & _ & _ & Hm & _);
    [discriminate|].
  exists m, a, b. split; [exact H|exact Hm].
Defined.

(** ** The variance *)

Lemma sumQ_nonneg (l : list Q) : Forall (λ q, 0 <= q)%Q l → (0 <= sumQ l)%Q.
Proof. induction 1 as [|q l Hq Hl IH]; simpl; [apply Qle_refl|lra]. Qed.

Lemma sumQ_zero (l : list Q) :
  Forall (λ q, 0 <= q)%Q l → sumQ l == 0 → Forall (λ q, q == 0) l.
Proof.
  induction 1 as [|q l Hq Hl IH]; simpl; intros Hz; [constructor|].
  pose proof (sumQ_nonneg l Hl). constructor; [lra|]. apply IH. lra.
Qed.

Lemma sumQ_all_zero (l : list Q) : Forall (λ q, q == 0) l → sumQ l == 0.
Proof. induction 1 as [|q l Hq Hl IH]; simpl; [reflexivity|]. rewrite Hq, IH. ring. Qed.

Lemma sumZ_constant (c : Z) (l : list Z) :
  Forall (λ x, x = c) l → sumZ l = (Z.of_nat (length l) * c)%Z.
Proof. induction 1 as [|x l -> Hl IH]; simpl in *; [done|]. lia. Qed.

Lemma Qsquare_zero (q : Q) : q ^ 2 == 0 → q == 0.
Proof.
  change (q ^ 2)%Q with (q * q)%Q. intros H.
  by destruct (Qmult_integral _ _ H).
Qed.

(** X12: for two rolls or more the variance under the square root of the
    standard deviation line is not negative, and it is zero exactly when all
    rolls are equal. *)
Theorem variance_of_rolls (rolls : list Z) :
  2 ≤ length rolls →
  ∃ v, std_dev_lines (printed rolls) = [Sqrt v]
       ∧ (0 <= v)%Q
       ∧ (v == 0 ↔ ∀ x y, x ∈ rolls → y ∈ rolls → x = y).
Proof.
  intros Hn.
  assert (Hne : rolls ≠ []) by (intros ->; simpl in Hn; lia).
  destruct (run_analysis_report rolls Hne) as [_ ->].
  rewrite std_dev_lines_report, std_dev_of_cases, decide_False by lia.
  exists (sample_variance rolls). split; [done|].
  unfold sample_variance.
  set (mean := (inject_Z (sumZ rolls) / Qn (length rolls))%Q).
  set (sq := (λ x, (inject_Z x - mean) ^ 2)%Q <$> rolls).
  assert (Hsq : Forall (λ q, 0 <= q)%Q sq).
  { apply Forall_fmap, Forall_forall. intros x _. apply Qsqr_nonneg. }
  assert (Hd : (0 < Qn (length rolls - 1))%Q) by (apply Qn_pos; lia).
  assert (Hd' : ¬ Qn (length rolls - 1) == 0) by lra.
  split.
  { apply Qle_shift_div_l; [done|]. rewrite Qmult_0_l. by apply sumQ_nonneg. }
  split.
  - intros Hv.
    assert (Hz : sumQ sq == 0).
    { rewrite <- (Qmult_div_r (sumQ sq) (Qn (length rolls - 1))) by done.
      rewrite Hv. ring. }
    apply sumQ_zero in Hz; [|done].
    assert (Hall : ∀ x, x ∈ rolls → inject_Z x == mean).
    { intros x Hx. unfold sq in Hz. rewrite Forall_fmap, Forall_forall in Hz.
      specialize (Hz x Hx). simpl in Hz. apply Qsquare_zero in Hz. lra. }
    intros x y Hx Hy. apply inject_Z_injective.
    rewrite (Hall x Hx), (Hall y Hy). reflexivity.
  - intros Hall. destruct (lookup_lt_is_Some_2 rolls 0) as [c Hc0]; [lia|].
    assert (Hc : Forall (λ x, x = c) rolls).
    { apply Forall_forall. intros x Hx. apply Hall; [done|].
      by eapply list_elem_of_lookup_2. }
    assert (Hmean : mean == inject_Z c).
    { unfold mean. rewrite (sumZ_constant c rolls Hc), inject_Z_mult.
      fold (Qn (length rolls)). field. by apply length_nonzero. }
    assert (Hz : sumQ sq == 0).
    { apply sumQ_all_zero. unfold sq. apply Forall_fmap, Forall_forall.
      intros x Hx. simpl. rewrite Forall_forall in Hc. rewrite (Hc x Hx), Hmean.
      ring. }
    rewrite Hz. field. done.
Qed.

Lemma variance_of_rolls_witness :
  2 ≤ length [3; 3; 5]%Z
  ∧ ∃ v, std_dev_lines (printed [3; 3; 5]%Z) = [Sqrt v] ∧ (0 <= v)%Q.
Proof.
  split; [simpl; lia|].
  destruct (variance_of_rolls [3; 3; 5]%Z) as (v & H & Hv & _); [simpl; lia|].
  exists v. split; [exact H|exact Hv].
Defined.

(** ** Bounds of the chi-square statistic *)

Lemma chi_square_algebra (c1 c2 c3 c4 c5 c6 n : Q) :
  ¬ n == 0 → c1 + c2 + c3 + c4 + c5 + c6 == n →
  0 + (c1 - n / 6) ^ 2 / (n / 6) + (c2 - n / 6) ^ 2 / (n / 6)
  + (c3 - n / 6) ^ 2 / (n / 6) + (c4 - n / 6) ^ 2 / (n / 6)
  + (c5 - n / 6) ^ 2 / (n / 6) + (c6 - n / 6) ^ 2 / (n / 6)
  == 6 * (c1 ^ 2 + c2 ^ 2 + c3 ^ 2 + c4 ^ 2 + c5 ^ 2 + c6 ^ 2) / n - n.
Proof.
  intros Hn Hsum.
  transitivity (6 * (c1 ^ 2 + c2 ^ 2 + c3 ^ 2 + c4 ^ 2 + c5 ^ 2 + c6 ^ 2) / n
                - 2 * (c1 + c2 + c3 + c4 + c5 + c6) + n)%Q.
  - field. exact Hn.
  - rewrite Hsum. field. exact Hn.
Qed.

Lemma squares_below_square (c1 c2 c3 c4 c5 c6 : Q) :
  (0 <= c1 → 0 <= c2 → 0 <= c3 → 0 <= c4 → 0 <= c5 → 0 <= c6 →
   c1 ^ 2 + c2 ^ 2 + c3 ^ 2 + c4 ^ 2 + c5 ^ 2 + c6 ^ 2
   <= (c1 + c2 + c3 + c4 + c5 + c6) * (c1 + c2 + c3 + c4 + c5 + c6))%Q.
Proof.
  intros.
  assert (P : ∀ a b : Q, (0 <= a → 0 <= b → 0 <= a * b)%Q) by (intros; nra).
  pose proof (P c1 c2). pose proof (P c1 c3). pose proof (P c1 c4).
  pose proof (P c1 c5). pose proof (P c1 c6). pose proof (P c2 c3).
  pose proof (P c2 c4). pose proof (P c2 c5). pose proof (P c2 c6).
  pose proof (P c3 c4). pose proof (P c3 c5). pose proof (P c3 c6).
  pose proof (P c4 c5). pose proof (P c4 c6). pose proof (P c5 c6).
  simpl. lra.
Qed.

Lemma Qn_nonneg n : (0 <= Qn n)%Q.
Proof. unfold Qn, Qle. simpl. lia. Qed.

Lemma Qn_occurrences_sum rolls :
  in_range rolls →
  Qn (occurrences 1 rolls) + Qn (occurrences 2 rolls) + Qn (occurrences 3 rolls)
  + Qn (occurrences 4 rolls) + Qn (occurrences 5 rolls) + Qn (occurrences 6 rolls)
  == Qn (length rolls).
Proof.
  intros Hr. rewrite <- (occurrences_sum rolls Hr). unfold faces. simpl.
  rewrite !Qn_plus. change (Qn 0) with 0%Q. ring.
Qed.

(** The statistic through the sum of the squared counts. *)
Lemma total_chi_square_squares rolls :
  rolls ≠ [] → in_range rolls →
  total_chi_square_of rolls
  == 6 * (Qn (occurrences 1 rolls) ^ 2 + Qn (occurrences 2 rolls) ^ 2
          + Qn (occurrences 3 rolls) ^ 2 + Qn (occurrences 4 rolls) ^ 2
          + Qn (occurrences 5 rolls) ^ 2 + Qn (occurrences 6 rolls) ^ 2)
    / Qn (length rolls) - Qn (length rolls).
Proof.
  intros Hne Hr. unfold total_chi_square_of, faces. cbn [foldl].
  unfold component_of, deviation_of, expected_of. rewrite !count_of_occurrences.
  apply chi_square_algebra; [by apply length_nonzero|by apply Qn_occurrences_sum].
Qed.

Lemma chi_square_le_algebra (S n : Q) :
  (0 < n)%Q → (S <= n * n)%Q → (6 * S / n - n <= 5 * n)%Q.
Proof.
  intros Hn HS.
  assert (Hdiv : (6 * S / n <= 6 * n)%Q).
  { apply Qle_shift_div_r; [done|]. nra. }
  set (t := (6 * S / n)%Q) in *. lra.
Qed.

Lemma total_chi_square_le rolls :
  rolls ≠ [] → in_range rolls →
  (total_chi_square_of rolls <= 5 * Qn (length rolls))%Q.
Proof.
  intros Hne Hr. rewrite (total_chi_square_squares rolls Hne Hr).
  pose proof (squares_below_square _ _ _ _ _ _
    (Qn_nonneg (occurrences 1 rolls)) (Qn_nonneg (occurrences 2 rolls))
    (Qn_nonneg (occurrences 3 rolls)) (Qn_nonneg (occurrences 4 rolls))
    (Qn_nonneg (occurrences 5 rolls)) (Qn_nonneg (occurrences 6 rolls))) as Hsq.
  rewrite (Qn_occurrences_sum rolls Hr) in Hsq.
  assert (Hpos : (0 < Qn (length rolls))%Q).
  { apply Qn_pos. destruct rolls; [done|simpl; lia]. }
  by apply chi_square_le_algebra.
Qed.

Lemma occurrences_all_equal (c f : Z) (rolls : list Z) :
  Forall (λ x, x = c) rolls →
  occurrences f rolls = if decide (c = f) then length rolls else 0.
Proof.
  induction 1 as [|x l -> Hl IH]; [by case_decide|].
  rewrite occurrences_cons, IH. simpl. by case_decide.
Qed.

Lemma total_chi_square_all_equal rolls :
  rolls ≠ [] → in_range rolls →
  (∀ a b, a ∈ rolls → b ∈ rolls → a = b) →
  total_chi_square_of rolls == 5 * Qn (length rolls).
Proof.
  intros Hne Hr Hall. rewrite (total_chi_square_squares rolls Hne Hr).
  destruct rolls as [|c l] eqn:E; [done|]. rewrite <- E in *.
  assert (Hc : Forall (λ x, x = c) rolls).
  { apply Forall_forall. intros x Hx. apply Hall; [done|]. rewrite E. left. }
  assert (Hcr : (1 ≤ c ≤ 6)%Z).
  { unfold in_range in Hr. rewrite Forall_forall in Hr. apply Hr. rewrite E. left. }
  pose proof (length_nonzero rolls Hne) as Hn.
  rewrite !(occurrences_all_equal c) by done.
  assert (c = 1 ∨ c = 2 ∨ c = 3 ∨ c = 4 ∨ c = 5 ∨ c = 6)%Z
    as [->|[->|[->|[->|[->| ->]]]]] by lia;
    simpl; change (Qn 0) with 0%Q; field; done.
Qed.

(** X14: one or two rolls in 1..6 are always reported as appearing fair:
    the statistic cannot reach the critical value. *)
Theorem verdict_two_rolls (rolls : list Z) :
  rolls ≠ [] → in_range rolls → length rolls ≤ 2 →
  verdict_lines (printed rolls) = [AppearsFair].
Proof.
  intros Hne Hr Hn. destruct (run_analysis_report rolls Hne) as [_ ->].
  rewrite verdict_lines_report.
  pose proof (total_chi_square_le rolls Hne Hr) as Hle.
  assert (Hq : (Qn (length rolls) <= 2)%Q).
  { unfold Qn. change 2%Q with (inject_Z 2). rewrite <- Zle_Qle. lia. }
  assert (Hlt : (total_chi_square_of rolls < critical_value)%Q).
  { unfold critical_value. lra. }
  apply Qlt_bool_iff in Hlt. by rewrite Hlt.
Qed.

Lemma verdict_two_rolls_witness :
  [6; 6]%Z ≠ [] ∧ in_range [6; 6]%Z ∧ length [6; 6]%Z ≤ 2
  ∧ verdict_lines (printed [6; 6]%Z) = [AppearsFair].
Proof.
  assert (Hr : in_range [6; 6]%Z) by (repeat constructor; lia).
  split_and!; [discriminate|exact Hr|simpl; lia|].
  apply (verdict_two_rolls [6; 6]%Z); [discriminate|exact Hr|simpl; lia].
Defined.

(** X15: three or more rolls in 1..6 that are all equal are always reported
    as possibly not fair. *)
Theorem verdict_all_equal (rolls : list Z) :
  3 ≤ length rolls → in_range rolls →
  (∀ a b, a ∈ rolls → b ∈ rolls → a = b) →
  verdict_lines (printed rolls) = [MayNotBeFair].
Proof.
  intros Hn Hr Hall.
  assert (Hne : rolls ≠ []) by (intros ->; simpl in Hn; lia).
  destruct (run_analysis_report rolls Hne) as [_ ->].
  rewrite verdict_lines_report.
  pose proof (total_chi_square_all_equal rolls Hne Hr Hall) as Heq.
  assert (Hq : (3 <= Qn (length rolls))%Q).
  { unfold Qn. change 3%Q with (inject_Z 3). rewrite <- Zle_Qle. lia. }
  destruct (Qlt_bool _ _) eqn:E; [|done].
  apply Qlt_bool_iff in E. unfold critical_value in E. lra.
Qed.

Lemma verdict_all_equal_witness :
  3 ≤ length [4; 4; 4]%Z ∧ in_range [4; 4; 4]%Z
  ∧ verdict_lines (printed [4; 4; 4]%Z) = [MayNotBeFair].
Proof.
  assert (Hr : in_range [4; 4; 4]%Z) by (repeat constructor; lia).
  assert (Hall : ∀ a b, a ∈ [4; 4; 4]%Z → b ∈ [4; 4; 4]%Z → a = b).
  { intros a b Ha Hb.
    repeat (apply elem_of_cons in Ha as [->|Ha]);
      repeat (apply elem_of_cons in Hb as [->|Hb]);
      try reflexivity; try (by apply elem_of_nil in Ha);
      by apply elem_of_nil in Hb. }
  split_and!; [simpl; lia|exact Hr|].
  apply (verdict_all_equal [4; 4; 4]%Z); [simpl; lia|exact Hr|exact Hall].
Defined.

(** ** More on the run analysis *)

Lemma streaks_last (l : list nat) :
  l ≠ [] →
  streaks l
  = streaks (removelast l) + (if decide (1 < default 0 (last l)) then 1 else 0).
Proof.
  induction l as [|a l IH]; intros Hne; [done|].
  destruct l as [|b l].
  - rewrite streaks_cons. change (streaks (removelast [a])) with 0.
    change (streaks []) with 0. change (default 0 (last [a])) with a. lia.
  - change (removelast (a :: b :: l)) with (a :: removelast (b :: l)).
    change (last (a :: b :: l)) with (last (b :: l)).
    rewrite (streaks_cons a (b :: l)), (streaks_cons a (removelast (b :: l))).
    rewrite IH by done. lia.
Qed.

Lemma length_unruns rs : length (unruns rs) = sum_list (snd <$> rs).
Proof.
  unfold unruns. induction rs as [|[v n] rs IH]; [done|].
  cbn [mbind list_bind fmap list_fmap]. rewrite length_app, length_replicate.
  simpl in *. by rewrite IH.
Qed.

Lemma sum_run_lengths (l : list Z) : sum_list (run_lengths l) = length l.
Proof.
  unfold run_lengths. rewrite <- length_unruns.
  by destruct (runs_decompose l) as [-> _].
Qed.

Lemma run_lengths_positive (l : list Z) : Forall (λ n, 1 ≤ n) (run_lengths l).
Proof.
  unfold run_lengths. apply Forall_fmap.
  destruct (runs_decompose l) as (_ & H & _). done.
Qed.

Lemma streaks_before_last_sum (l : list nat) :
  l ≠ [] → Forall (λ n, 1 ≤ n) l → 2 * streaks (removelast l) + 1 ≤ sum_list l.
Proof.
  induction l as [|a l IH]; intros Hne Hpos; [done|].
  inversion Hpos as [|? ? Ha Hl]; subst. destruct l as [|b l].
  - unfold streaks. simpl. lia.
  - change (removelast (a :: b :: l)) with (a :: removelast (b :: l)).
    rewrite streaks_cons. specialize (IH ltac:(done) Hl).
    cbn [sum_list_with] in *. unfold id in *. case_decide; lia.
Qed.

Lemma max_list_le_sum_list (l : list nat) : max_list l ≤ sum_list l.
Proof. induction l as [|a l IH]; simpl; lia. Qed.

Lemma streaks_max_list (l : list nat) : 1 ≤ streaks l → 2 ≤ max_list l.
Proof.
  induction l as [|a l IH]; [unfold streaks; simpl; lia|].
  rewrite streaks_cons. simpl. case_decide; lia.
Qed.

Lemma streaks_removelast (l : list nat) : streaks (removelast l) ≤ streaks l.
Proof.
  destruct l as [|a l]; [done|]. rewrite (streaks_last (a :: l)) by done. lia.
Qed.

(** X16: the reported count of consecutive-same occurrences is the number
    of maximal runs longer than one that another value follows: it is the
    number of all such runs, less one when the sequence ends in one.  Twice
    the count plus one is at most the number of rolls, the reported maximum
    run is at most the number of rolls, and a count of one or more comes
    with a maximum run of two or more. *)
Theorem run_count_relation (rolls : list Z) :
  rolls ≠ [] →
  ∃ c m, run_count_lines (printed rolls) = [c]
    ∧ max_run_lines (printed rolls) = [m]
    ∧ c = streak_count_before_last rolls
    ∧ streak_count rolls
      = c + (if decide (1 < default 0 (last (run_lengths rolls))) then 1 else 0)
    ∧ 2 * c + 1 ≤ length rolls
    ∧ m ≤ length rolls
    ∧ (1 ≤ c → 2 ≤ m).
Proof.
  intros Hne. destruct (run_analysis_report rolls Hne) as [_ ->].
  rewrite run_count_lines_report, max_run_lines_report.
  destruct (run_state_of_spec rolls Hne) as [-> ->].
  assert (Hl : run_lengths rolls ≠ []).
  { destruct rolls as [|x l]; [done|].
    destruct (runs_cons_head x l) as (k & rs & Hx).
    unfold run_lengths. by rewrite Hx. }
  eexists _, _. split_and!; [reflexivity|reflexivity|reflexivity|..].
  - unfold streak_count, streak_count_before_last. by apply streaks_last.
  - rewrite <- (sum_run_lengths rolls). unfold streak_count_before_last.
    apply streaks_before_last_sum; [done|apply run_lengths_positive].
  - rewrite <- (sum_run_lengths rolls). apply max_list_le_sum_list.
  - unfold streak_count_before_last, longest_run. intros Hc.
    apply streaks_max_list.
    pose proof (streaks_removelast (run_lengths rolls)). lia.
Qed.

Lemma run_count_relation_witness :
  [1; 1; 2; 2; 2; 3; 1; 1]%Z ≠ []
  ∧ ∃ c m, run_count_lines (printed [1; 1; 2; 2; 2; 3; 1; 1]%Z) = [c]
           ∧ max_run_lines (printed [1; 1; 2; 2; 2; 3; 1; 1]%Z) = [m]
           ∧ streak_count [1; 1; 2; 2; 2; 3; 1; 1]%Z = c + 1.
Proof.
  split; [discriminate|].
  destruct (run_count_relation [1; 1; 2; 2; 2; 3; 1; 1]%Z)
    as (c & m & Hc & Hm & _ & Hs & _); [discriminate|].
  exists c, m. split_and!; [exact Hc|exact Hm|exact Hs].
Defined.

(** ** The order of the rolls *)

Lemma occurrences_Permutation f (l1 l2 : list Z) :
  l1 ≡ₚ l2 → occurrences f l1 = occurrences f l2.
Proof. intros H. unfold occurrences. by rewrite H. Qed.

Lemma count_of_Permutation f (l1 l2 : list Z) :
  l1 ≡ₚ l2 → count_of l1 f = count_of l2 f.
Proof. intros H. rewrite !count_of_occurrences. by apply occurrences_Permutation. Qed.

Lemma sumZ_Permutation (l1 l2 : list Z) : l1 ≡ₚ l2 → sumZ l1 = sumZ l2.
Proof. induction 1; simpl in *; lia. Qed.

Lemma merge_sort_Permutation_eq (l1 l2 : list Z) :
  l1 ≡ₚ l2 → merge_sort Z.le l1 = merge_sort Z.le l2.
Proof.
  intros H. apply (StronglySorted_unique Z.le).
  - apply StronglySorted_merge_sort; apply _.
  - apply StronglySorted_merge_sort; apply _.
  - by rewrite !merge_sort_Permutation.
Qed.

Lemma np_mean_Permutation (l1 l2 : list Z) : l1 ≡ₚ l2 → np_mean l1 = np_mean l2.
Proof.
  intros H. unfold np_mean.
  rewrite (sumZ_Permutation l1 l2 H), (Permutation_length H).
  destruct l1, l2; try done.
  - by apply Permutation_nil_cons in H.
  - symmetry in H. by apply Permutation_nil_cons in H.
Qed.

Lemma np_median_Permutation (l1 l2 : list Z) :
  l1 ≡ₚ l2 → np_median l1 = np_median l2.
Proof.
  intros H. unfold np_median.
  rewrite (merge_sort_Permutation_eq l1 l2 H), (Permutation_length H).
  destruct l1, l2; try done.
  - by apply Permutation_nil_cons in H.
  - symmetry in H. by apply Permutation_nil_cons in H.
Qed.

Lemma min_Permutation (x1 x2 : Z) (l1 l2 : list Z) :
  x1 :: l1 ≡ₚ x2 :: l2 → foldl Z.min x1 l1 = foldl Z.min x2 l2.
Proof.
  intros H. destruct (foldl_min_spec l1 x1) as [Hin1 Hle1].
  destruct (foldl_min_spec l2 x2) as [Hin2 Hle2].
  rewrite H in Hin1. rewrite <- H in Hin2.
  specialize (Hle1 _ Hin2). specialize (Hle2 _ Hin1). lia.
Qed.

Lemma max_Permutation (x1 x2 : Z) (l1 l2 : list Z) :
  x1 :: l1 ≡ₚ x2 :: l2 → foldl Z.max x1 l1 = foldl Z.max x2 l2.
Proof.
  intros H. destruct (foldl_max_spec l1 x1) as [Hin1 Hle1].
  destruct (foldl_max_spec l2 x2) as [Hin2 Hle2].
  rewrite H in Hin1. rewrite <- H in Hin2.
  specialize (Hle1 _ Hin2). specialize (Hle2 _ Hin1). lia.
Qed.

Lemma face_row_of_Permutation (l1 l2 : list Z) f :
  l1 ≡ₚ l2 → face_row_of l1 f = face_row_of l2 f.
Proof.
  intros H. unfold face_row_of, percentage_of, deviation_of, expected_of.
  by rewrite (count_of_Permutation f l1 l2 H), (Permutation_length H).
Qed.

Lemma total_chi_square_of_Permutation (l1 l2 : list Z) :
  l1 ≡ₚ l2 → total_chi_square_of l1 = total_chi_square_of l2.
Proof.
  intros H. unfold total_chi_square_of, faces, component_of, deviation_of,
    expected_of. cbn [foldl].
  by rewrite !(count_of_Permutation _ l1 l2 H), (Permutation_length H).
Qed.

Lemma bucket_Permutation (a b : Z) (l1 l2 : list Z) :
  l1 ≡ₚ l2 →
  length (filter (λ r, r ∈ [a; b]) l1) = length (filter (λ r, r ∈ [a; b]) l2).
Proof. intros H. apply Permutation_length. by apply filter_Permutation. Qed.

Lemma ranges_of_Permutation (l1 l2 : list Z) :
  l1 ≡ₚ l2 → ranges_of l1 = ranges_of l2.
Proof.
  intros H. unfold ranges_of.
  by rewrite (bucket_Permutation 1 2 l1 l2 H), (bucket_Permutation 3 4 l1 l2 H),
    (bucket_Permutation 5 6 l1 l2 H).
Qed.

(** X17: the order of the rolls only matters to the pattern analysis and
    to the rounding of the standard deviation: two sequences of rolls in
    1..6 with the same rolls in another order give reports whose first 29
    lines, the standard deviation line left out, are the same; the two lines
    after them are the maximum run and the run count. *)
Theorem report_order_independent (rolls rolls' : list Z) :
  rolls ≠ [] → in_range rolls → rolls ≡ₚ rolls' →
  without_std_dev (take 29 (printed rolls))
  = without_std_dev (take 29 (printed rolls')).
Proof.
  intros Hne _ H.
  assert (Hne' : rolls' ≠ []).
  { intros ->. by apply Permutation_nil_r in H. }
  destruct (run_analysis_report rolls Hne) as [_ ->].
  destruct (run_analysis_report rolls' Hne') as [_ ->].
  unfold report_lines, verdict_text_of, range_line_of.
  rewrite (total_chi_square_of_Permutation _ _ H), (np_mean_Permutation _ _ H),
    (np_median_Permutation _ _ H), (ranges_of_Permutation _ _ H),
    (Permutation_length H).
  assert (Hmin : foldl Z.min (hd 0%Z rolls) (tl rolls)
                 = foldl Z.min (hd 0%Z rolls') (tl rolls')).
  { destruct rolls, rolls'; try done. by apply min_Permutation. }
  assert (Hmax : foldl Z.max (hd 0%Z rolls) (tl rolls)
                 = foldl Z.max (hd 0%Z rolls') (tl rolls')).
  { destruct rolls, rolls'; try done. by apply max_Permutation. }
  rewrite Hmin, Hmax. unfold faces, ranges_of. cbn [fmap list_fmap app take].
  rewrite !(face_row_of_Permutation _ _ _ H).
  unfold without_std_dev, face_row_of.
  repeat (rewrite filter_cons; cbn [is_std_dev_line];
          first [rewrite decide_True by done | rewrite decide_False by done]).
  reflexivity.
Qed.

Lemma report_order_independent_witness :
  [1; 1; 2]%Z ≠ [] ∧ in_range [1; 1; 2]%Z ∧ [1; 1; 2]%Z ≡ₚ [1; 2; 1]%Z
  ∧ without_std_dev (take 29 (printed [1; 1; 2]%Z))
    = without_std_dev (take 29 (printed [1; 2; 1]%Z)).
Proof.
  assert (Hr : in_range [1; 1; 2]%Z) by (repeat constructor; lia).
  assert (Hp : [1; 1; 2]%Z ≡ₚ [1; 2; 1]%Z).
  { apply perm_skip. apply perm_swap. }
  split_and!; [discriminate|exact Hr|exact Hp|].
  apply (report_order_independent [1; 1; 2]%Z [1; 2; 1]%Z);
    [discriminate|exact Hr|exact Hp].
Defined.

(** ** Rolls outside 1..6 *)



